(** * Moonshine speech-to-text: the decode pipeline of [OnnxModel] and the
      [Transcriber] facade

    A shallow embedding of
    - [src/include/moonshine.h]            ([ModelType], [Transcriber]),
    - [src/include/moonshine_onnx_model.h] ([OnnxModel], its constants),
    - [src/src/moonshine_onnx_model.cpp]   (encode / decode / KV cache),
    - [src/src/moonshine_transcribe.cpp]   ([transcribe], [operator()]).

    The ONNX Runtime sessions and the tokenizer are external: they appear
    as records of functions, and every statement quantifies over them. *)

From Stdlib Require Import ZArith List String Ascii Bool QArith Qround Qpower.
From Stdlib Require Import Lia Lqa.
From Stdlib Require Import SpecFloat.
From stdpp Require Import base list relations.

Import ListNotations.
Local Open Scope Z_scope.

(* ===================================================================== *)
(** * Outcomes of a C++ call *)
(* ===================================================================== *)

(** The exceptions the sources raise or let through: [Ort::Exception] from
    a session's [Run], [std::out_of_range] from [vector::at],
    [std::runtime_error] from [get_next_token] and the constructors,
    whatever the tokenizer binding raises, and
    [std::filesystem::filesystem_error] from a file status query that
    fails. *)
Inductive exn : Type :=
| Ort_Exception
| std_out_of_range
| std_runtime_error (what : string)
| tokenizer_error
| std_filesystem_error.

(** A call returns a value, leaves by an exception, ends the process
    ([std::terminate]), or has no meaning at all (an out-of-bounds read:
    undefined behaviour). *)
Inductive M (A : Type) : Type :=
| Ret (a : A)
| Throw (e : exn)
| Terminate
| Undefined.
Arguments Ret {A} a.
Arguments Throw {A} e.
Arguments Terminate {A}.
Arguments Undefined {A}.

Definition bind {A B : Type} (m : M A) (k : A -> M B) : M B :=
  match m with
  | Ret a => k a
  | Throw e => Throw e
  | Terminate => Terminate
  | Undefined => Undefined
  end.

Notation "'let*' x ':=' m 'in' k" := (bind m (fun x => k))
  (at level 10, x name, m at level 100, k at level 200).

(** A function declared [noexcept]: an exception that reaches its boundary
    calls [std::terminate]; nothing is caught. *)
Definition noexcept {A : Type} (m : M A) : M A :=
  match m with
  | Throw _ => Terminate
  | _ => m
  end.

(** [std::vector::at]: bounds-checked access. *)
Definition at_ {A : Type} (v : list A) (i : nat) : M A :=
  match v !! i with
  | Some x => Ret x
  | None => Throw std_out_of_range
  end.

(** [std::vector::operator[]]: unchecked access. *)
Definition index {A : Type} (v : list A) (i : nat) : M A :=
  match v !! i with
  | Some x => Ret x
  | None => Undefined
  end.

(* ===================================================================== *)
(** * Tensors *)
(* ===================================================================== *)

(** A C++ [float].  Values are IEEE-754 data in the Standard Library's
    specification type, so that [<] on logits is the IEEE comparison
    ([SFltb]), with its NaN and signed zeros. *)
Definition float := spec_float.

Definition float_lt (x y : float) : bool := SFltb x y.
Definition float_le (x y : float) : bool := SFleb x y.

(** The buffer of an [Ort::Value] tensor, by element type. *)
Inductive tensor_data : Type :=
| FloatData (xs : list float)
| Int64Data (xs : list Z)
| BoolData (xs : list bool).

(** An [Ort::Value] holding a tensor: its shape and its buffer. *)
Record Value : Type := mkValue {
  GetShape : list Z;
  GetTensorData : tensor_data
}.

(** [clone_tensor<float>]: [CreateTensor] over the buffer of the given
    tensor, with the same shape.  No data is copied: the new handle views
    the same buffer. *)
Definition clone_tensor (tensor : Value) : Value :=
  mkValue (GetShape tensor) (GetTensorData tensor).

(* ===================================================================== *)
(** * Greedy token selection: [OnnxModel::get_next_token] *)
(* ===================================================================== *)

(** [std::max_element] over a range: the scan keeps the position of the
    largest element seen so far and moves on only when [*largest < *first]. *)
Fixpoint max_element_from (largest : nat) (largest_val : float)
    (first : nat) (l : list float) : nat :=
  match l with
  | [] => largest
  | x :: l' =>
      if float_lt largest_val x
      then max_element_from first x (S first) l'
      else max_element_from largest largest_val (S first) l'
  end.

(** [std::distance (v.begin (), std::max_element (v.begin (), v.end ()))];
    on an empty range [max_element] returns [last], at distance 0. *)
Definition max_element (l : list float) : nat :=
  match l with
  | [] => 0%nat
  | x :: l' => max_element_from 0 x 1 l'
  end.

(** Conversion of a [ptrdiff_t] to the [int] the function returns. *)
Definition INT_MAX : Z := 2147483647.
Definition to_int (z : Z) : Z := (z + 2 ^ 31) mod 2 ^ 32 - 2 ^ 31.

(** [std::vector<float> logit_vec (p, p + vocab_size)]: the first
    [vocab_size] floats of the buffer; a read past the buffer, or of a
    buffer of another element type, is undefined. *)
Definition read_floats (d : tensor_data) (count : Z) : M (list float) :=
  match d with
  | FloatData xs =>
      if (0 <=? count) && (count <=? Z.of_nat (length xs))
      then Ret (take (Z.to_nat count) xs)
      else Undefined
  | _ => Undefined
  end.

Definition get_next_token (logits : Value) : M Z :=
  match GetShape logits with
  | [d0; d1; vocab_size] =>
      if negb (d0 =? 1) || negb (d1 =? 1)
      then Throw (std_runtime_error "Unexpected logits shape")
      else
        let* logit_vec := read_floats (GetTensorData logits) vocab_size in
        Ret (to_int (Z.of_nat (max_element logit_vec)))
  | _ => Throw (std_runtime_error "Unexpected logits shape")
  end.

(* ===================================================================== *)
(** * The inference engine binding *)
(* ===================================================================== *)

(** What one [Ort::Session::Run] call leaves behind: the contents of the
    buffers of its input tensors (the engine receives pointers into them;
    [CreateTensor] takes them as mutable), and the output tensors or an
    [Ort::Exception]. *)
Record RunResult : Type := mkRunResult {
  inputs_after : list tensor_data;
  outputs : M (list Value)
}.

(** A loaded model graph: the names it declares and its [Run]. *)
Record Session : Type := mkSession {
  GetInputNames : list string;
  GetOutputNames : list string;
  Run : list Value -> RunResult
}.

(** [session.Run (opts, names.data (), inputs, count, ...)]: the engine
    reads [count] names; with fewer names in the vector that read is out of
    bounds. *)
Definition call_Run (s : Session) (input_names : list string)
    (inputs : list Value) : RunResult :=
  if (length inputs <=? length input_names)%nat
  then Run s inputs
  else mkRunResult (map GetTensorData inputs) Undefined.

(** The buffer of [v] as the engine left it. *)
Definition write_back (v : Value) (d : option tensor_data) : Value :=
  match d with
  | Some d' => mkValue (GetShape v) d'
  | None => v
  end.

(* ===================================================================== *)
(** * [OnnxModel] *)
(* ===================================================================== *)

Definition start_token : Z := 1.
Definition end_token : Z := 2.
Definition sample_rate : Z := 16000.
Definition max_tokens_per_second : Z := 6.
Definition min_token_count : Z := 1.

Record OnnxModel : Type := mkOnnxModel {
  num_layers : Z;
  num_kv_heads : Z;
  head_dim : Z;
  encoder : Session;
  decoder : Session;
  encoder_input_names : list string;
  encoder_output_names : list string;
  decoder_input_names : list string;
  decoder_output_names : list string
}.

(** The private constructor, after the two sessions are loaded (the path
    checks and the session options are file and engine matters); the name
    vectors are filled by [initialize_model_io_names]. *)
Definition OnnxModel_new (enc dec : Session)
    (num_layers num_kv_heads head_dim : Z) : OnnxModel :=
  mkOnnxModel num_layers num_kv_heads head_dim enc dec
    (GetInputNames enc) (GetOutputNames enc)
    (GetInputNames dec) (GetOutputNames dec).

Definition OnnxModel_Base (enc dec : Session) : OnnxModel :=
  OnnxModel_new enc dec 8 8 52.

Definition OnnxModel_Tiny (enc dec : Session) : OnnxModel :=
  OnnxModel_new enc dec 6 8 36.

(** ** Token budget *)

(** The arithmetic of [run] is carried out on [double]: IEEE-754 binary64,
    53 bits of precision, every operation rounded to nearest, ties to
    even. *)

(** [static_cast<double>] of a [size_t], and the conversion of the
    [size_t] constants that meet a [double] operand. *)
Definition b64_of_Z (z : Z) : spec_float := binary_normalize 53 1024 z 0 false.

(** [std::round] of a [double] (to the nearest integer, halfway cases away
    from zero) and the conversion of the result to [size_t]; the mantissa
    [m] and exponent [e] stand for [m * 2^e]. *)
Definition b64_round_to_Z (x : spec_float) : Z :=
  match x with
  | S754_finite s m e =>
      let a := match e with
               | Zneg p => (Zpos m + 2 ^ (Zpos p - 1)) / 2 ^ Zpos p
               | _ => Zpos m * 2 ^ e
               end in
      if s then - a else a
  | _ => 0
  end.

(** [run]: [audio_len = static_cast<double> (size) / sample_rate]. *)
Definition audio_len (size : Z) : spec_float :=
  SFdiv 53 1024 (b64_of_Z size) (b64_of_Z sample_rate).

(** The argument of [std::round]: [audio_len * max_tokens_per_second]. *)
Definition max_len_double (size : Z) : spec_float :=
  SFmul 53 1024 (audio_len size) (b64_of_Z max_tokens_per_second).

(** [size_t max_len = std::round (audio_len * max_tokens_per_second)]. *)
Definition max_len_of (size : Z) : Z := b64_round_to_Z (max_len_double size).

(** [decode]: [max_token_count = std::max (max_len, min_token_count)]. *)
Definition max_token_count (max_len : Z) : Z := Z.max max_len min_token_count.

(** The number of decode iterations allowed for [size] samples. *)
Definition token_budget (size : Z) : Z := max_token_count (max_len_of size).

(** ** Encoder *)

(** [encode]: one input tensor of shape [{1, size}] over the caller's
    buffer.  Returns the buffer as the engine left it and the outputs. *)
Definition encode (m : OnnxModel) (audio_data : list float)
    : list float * M (list Value) :=
  let encoder_input_shape := [1; Z.of_nat (length audio_data)] in
  let in_tensor := mkValue encoder_input_shape (FloatData audio_data) in
  let r := call_Run (encoder m) (encoder_input_names m) [in_tensor] in
  (match inputs_after r !! 0%nat with
   | Some (FloatData xs) => xs
   | _ => audio_data
   end, outputs r).

(** ** KV cache *)

(** [std::string::find (pat) != npos]. *)
Fixpoint contains (s pat : string) : bool :=
  if String.prefix pat s then true
  else match s with
       | EmptyString => false
       | String _ s' => contains s' pat
       end.

Definition past_key_prefix : string := "past_key_values".

(** [initialize_past_key_values]: one empty tensor of shape
    [{0, num_kv_heads, 1, head_dim}] for every decoder input whose name
    contains ["past_key_values"]. *)
Fixpoint empty_past_key_values (shape : list Z) (names : list string)
    : list Value :=
  match names with
  | [] => []
  | key :: names' =>
      if contains key past_key_prefix
      then mkValue shape (FloatData []) :: empty_past_key_values shape names'
      else empty_past_key_values shape names'
  end.

Definition initialize_past_key_values (m : OnnxModel) : list Value :=
  let shape := [0; num_kv_heads m; 1; head_dim m] in
  empty_past_key_values shape (decoder_input_names m).

(** [update_kv_cache]: the two vectors are walked together up to the end
    of the shorter one. *)
Fixpoint update_kv_cache (cache new_values : list Value)
    (use_cache_branch : bool) : M (list Value) :=
  match cache, new_values with
  | c :: cache', n :: new_values' =>
      let present_kv_shape := GetShape n in
      let past_kv_shape := GetShape c in
      let* past0 := index past_kv_shape 0 in
      let past_kv_empty := past0 =? 0 in
      let* present_kv_tok_proc := index present_kv_shape 2 in
      let is_decoder_kv := 1 <? present_kv_tok_proc in
      let c' := if past_kv_empty || is_decoder_kv || negb use_cache_branch
                then n else c in
      let* rest := update_kv_cache cache' new_values' use_cache_branch in
      Ret (c' :: rest)
  | _, _ => Ret cache
  end.

(** ** Decoder *)

Definition bool_tensor (b : bool) : Value := mkValue [1] (BoolData [b]).

(** [decode_next_token].  The hidden state and the cache entries are passed
    as [clone_tensor] views, so what the engine leaves in those buffers is
    what the caller's tensors hold afterwards. *)
Definition decode_next_token (m : OnnxModel) (cur_tokens : list Z)
    (last_hidden_state : Value) (past_key_values : list Value)
    (use_cache_branch : bool) : Value * list Value * M (list Value) :=
  let dec_input_ids_shape := [1; Z.of_nat (length cur_tokens)] in
  let decoder_inputs :=
    mkValue dec_input_ids_shape (Int64Data cur_tokens)
    :: clone_tensor last_hidden_state
    :: map clone_tensor past_key_values
    ++ [bool_tensor use_cache_branch] in
  let r := call_Run (decoder m) (decoder_input_names m) decoder_inputs in
  (write_back last_hidden_state (inputs_after r !! 1%nat),
   imap (fun k v => write_back v (inputs_after r !! (2 + k)%nat))
        past_key_values,
   outputs r).

(** The variables of the loop in [decode]. *)
Record loop_state : Type := mkLoop {
  i : nat;
  last_hidden_state : Value;
  past_key_values : list Value;
  cur_tokens : list Z;
  result_tokens : list Z
}.

Inductive step : Type :=
| Break (s : loop_state)
| Continue (s : loop_state).

(** One pass through the body of the [for] loop. *)
Definition decode_step (m : OnnxModel) (s : loop_state) : M step :=
  let use_cache_branch := (0 <? i s)%nat in
  let '(hidden, cache, output) :=
    decode_next_token m (cur_tokens s) (last_hidden_state s)
                      (past_key_values s) use_cache_branch in
  let* output := output in
  let* logits := at_ output 0 in
  let* next_token := get_next_token logits in
  let cur := [next_token] in
  if next_token =? end_token
  then Ret (Break (mkLoop (i s) hidden cache cur (result_tokens s)))
  else
    let result := result_tokens s ++ [next_token] in
    let present_kv := drop 1 output in
    let* cache' := update_kv_cache cache present_kv use_cache_branch in
    Ret (Continue (mkLoop (S (i s)) hidden cache' cur result)).

(** [for (i = 0; i < max_token_count; i++)], [n] passes left. *)
Fixpoint decode_loop (m : OnnxModel) (n : nat) (s : loop_state)
    : M loop_state :=
  match n with
  | O => Ret s
  | S n' =>
      let* r := decode_step m s in
      match r with
      | Break s' => Ret s'
      | Continue s' => decode_loop m n' s'
      end
  end.

Definition decode_init (m : OnnxModel) (hidden : Value) : loop_state :=
  mkLoop 0 hidden (initialize_past_key_values m) [start_token] [].

Definition decode (m : OnnxModel) (hidden : Value) (max_len : Z)
    : M (list Z) :=
  let* s := decode_loop m (Z.to_nat (max_token_count max_len))
                        (decode_init m hidden) in
  Ret (result_tokens s).

(** The body of [run]: the caller's buffer as the call left it, and the
    tokens. *)
Definition run_body (m : OnnxModel) (audio_data : list float)
    : list float * M (list Z) :=
  let max_len := max_len_of (Z.of_nat (length audio_data)) in
  let '(audio_after, hidden) := encode m audio_data in
  (audio_after,
   let* hidden := hidden in
   let* h := at_ hidden 0 in
   decode m h max_len).

(** [run] is declared [noexcept]. *)
Definition run (m : OnnxModel) (audio_data : list float)
    : list float * M (list Z) :=
  let '(audio_after, tokens) := run_body m audio_data in
  (audio_after, noexcept tokens).

(* ===================================================================== *)
(** * [ModelType] and the [Transcriber] facade *)
(* ===================================================================== *)

Module ModelType.

Inductive Type_ : Type := Base | Tiny.

(** [::tolower] in the "C" locale, on characters taken as bytes 0..255:
    the 26 upper-case letters move to lower case, every other character is
    returned as it is. *)
Definition tolower (c : ascii) : ascii :=
  let n := nat_of_ascii c in
  if (65 <=? n)%nat && (n <=? 90)%nat then ascii_of_nat (n + 32) else c.

(** [std::transform (begin, end, begin, ::tolower)]. *)
Fixpoint transform_tolower (str : string) : string :=
  match str with
  | EmptyString => EmptyString
  | String c str' => String (tolower c) (transform_tolower str')
  end.

Definition from_string (str : string) : option Type_ :=
  let str_lower := transform_tolower str in
  if String.eqb str_lower "base" then Some Base
  else if String.eqb str_lower "tiny" then Some Tiny
  else None.

End ModelType.

(** The tokenizer binding: [Decode] maps token ids to text. *)
Record Tokenizer : Type := mkTokenizer {
  Decode : list Z -> M string
}.

Record Transcriber : Type := mkTranscriber {
  model : OnnxModel;
  tokenizer : Tokenizer
}.

(** The constructor, after the tokenizer file is read and the sessions are
    loaded: the [switch] on the model type picks the factory. *)
Definition Transcriber_new (model_type : ModelType.Type_)
    (enc dec : Session) (tok : Tokenizer) : Transcriber :=
  match model_type with
  | ModelType.Base => mkTranscriber (OnnxModel_Base enc dec) tok
  | ModelType.Tiny => mkTranscriber (OnnxModel_Tiny enc dec) tok
  end.

(** What a call of the facade amounts to for its caller: the sample buffer
    afterwards, the token sequences handed to [Tokenizer::Decode], and the
    string returned (or how the call ended otherwise). *)
Record Call : Type := mkCall {
  audio_after : list float;
  Decode_calls : list (list Z);
  returned : M string
}.

(** [Transcriber::transcribe], declared [noexcept]. *)
Definition transcribe (t : Transcriber) (audio_data : list float) : Call :=
  let '(audio', tokens) := run (model t) audio_data in
  match tokens with
  | Ret tokens =>
      match tokens with
      | [] => mkCall audio' [] (Ret EmptyString)
      | _ => mkCall audio' [tokens] (noexcept (Decode (tokenizer t) tokens))
      end
  | Throw e => mkCall audio' [] Terminate
  | Terminate => mkCall audio' [] Terminate
  | Undefined => mkCall audio' [] Undefined
  end.

(** [Transcriber::operator()]. *)
Definition call_operator (t : Transcriber) (audio_data : list float) : Call :=
  transcribe t audio_data.

(* ===================================================================== *)
(** * Notions used in the statements *)
(* ===================================================================== *)

(** Index [r] holds a value that no element of [l] exceeds. *)
Definition attains_max (l : list float) (r : nat) : Prop :=
  exists y, l !! r = Some y /\
            forall j x, l !! j = Some x -> float_le x y = true.

(** The three triggers of the replacement policy, read off the shapes. *)
Definition leading_dim_is_zero (c : Value) : Prop := GetShape c !! 0%nat = Some 0.
Definition third_axis_above_one (n : Value) : Prop :=
  exists d, GetShape n !! 2%nat = Some d /\ 1 < d.
Definition replacement_due (c n : Value) (use_cache_branch : bool) : Prop :=
  leading_dim_is_zero c \/ third_axis_above_one n \/ use_cache_branch = false.

(** The token budget in the words of the specification:
    round ((n / 16000) * 6), floored to at least 1, on exact numbers. *)
Definition spec_token_budget (n : Z) : Z :=
  Z.max (Qfloor (inject_Z n / 16000 * 6 + (1 # 2))) 1.

(** The [double] [x] is zero or a positive finite number. *)
Definition finite_nonneg (x : spec_float) : Prop :=
  x = S754_zero false \/ exists m e, x = S754_finite false m e.

(** The value [m * 2^e] of a finite [double]. *)
Definition b64_val (m : positive) (e : Z) : Q :=
  (inject_Z (Zpos m) * 2 ^ e)%Q.

(** The rational [a / b] lies at location [l] of the interval
    [[m, m + 1]]: on [m], in the lower half, in the middle, or in the
    upper half. *)
Definition inbetween (a b m : Z) (l : location) : Prop :=
  match l with
  | loc_Exact => a = m * b
  | loc_Inexact Lt => m * b < a /\ 2 * a < (2 * m + 1) * b
  | loc_Inexact Eq => 2 * a = (2 * m + 1) * b
  | loc_Inexact Gt => (2 * m + 1) * b < 2 * a /\ a < (m + 1) * b
  end.

(** The 53-bit mantissa [m] at exponent [e] is the rounding of [x > 0] to
    nearest, ties to even: [x] is within half a unit of [m * 2^e] (a
    quarter below the power of two [2^52 * 2^e], where the units below are
    half as wide), and when it is halfway then [m] is even. *)
Record rounds_to (x : Q) (m : positive) (e : Z) : Prop := mkRounds {
  r_norm : 2 ^ 52 <= Zpos m < 2 ^ 53;
  r_lo : ((inject_Z (Zpos m) - (1 # 2)) * 2 ^ e <= x)%Q;
  r_hi : (x <= (inject_Z (Zpos m) + (1 # 2)) * 2 ^ e)%Q;
  r_lo' : Zpos m = 2 ^ 52 -> ((inject_Z (Zpos m) - (1 # 4)) * 2 ^ e <= x)%Q;
  r_tie : (x == (inject_Z (Zpos m) - (1 # 2)) * 2 ^ e)%Q \/
          (x == (inject_Z (Zpos m) + (1 # 2)) * 2 ^ e)%Q ->
          Z.even (Zpos m) = true
}.

(** One pass of the loop takes [s] to [s']. *)
Definition decode_steps_to (m : OnnxModel) (s s' : loop_state) : Prop :=
  decode_step m s = Ret (Break s') \/ decode_step m s = Ret (Continue s').

(** A token that greedy selection produced from some logits. *)
Definition selected (t : Z) : Prop :=
  exists logits, get_next_token logits = Ret t.

(** The token that the pass from [s] selects: [get_next_token] of the
    first tensor the decoder returns for the inputs of [s]. *)
Definition pass_token (m : OnnxModel) (s : loop_state) : M Z :=
  let* output := snd (decode_next_token m (cur_tokens s) (last_hidden_state s)
                        (past_key_values s) (0 <? i s)%nat) in
  let* logits := at_ output 0 in
  get_next_token logits.

(** [tokens] are the tokens selected, in order, by the passes that lead
    from [s] to [s'], none of them the end token. *)
Inductive selects (m : OnnxModel) : loop_state -> list Z -> loop_state -> Prop :=
| selects_nil (s : loop_state) : selects m s [] s
| selects_cons (s s1 s' : loop_state) (t : Z) (tokens : list Z) :
    pass_token m s = Ret t -> t <> end_token ->
    decode_step m s = Ret (Continue s1) ->
    selects m s1 tokens s' ->
    selects m s (t :: tokens) s'.

(** The decoder inputs that name a cache entry. *)
Definition past_key_names (m : OnnxModel) : list string :=
  List.filter (fun key => contains key past_key_prefix) (decoder_input_names m).

(** The first pass of the loop selects the end token. *)
Definition first_step_yields_end_token (m : OnnxModel) (audio : list float)
    : Prop :=
  exists hidden h output logits,
    snd (encode m audio) = Ret hidden /\ at_ hidden 0 = Ret h /\
    snd (decode_next_token m [start_token] h
           (initialize_past_key_values m) false) = Ret output /\
    at_ output 0 = Ret logits /\
    get_next_token logits = Ret end_token.

(** A session that never writes into the buffers of its inputs. *)
Definition reads_only (s : Session) : Prop :=
  forall inputs, inputs_after (Run s inputs) = map GetTensorData inputs.

(** The upper-case form of a lower-case letter. *)
Definition toupper (c : ascii) : ascii :=
  let n := nat_of_ascii c in
  if (97 <=? n)%nat && (n <=? 122)%nat then ascii_of_nat (n - 32) else c.

Definition is_lower (c : ascii) : bool :=
  let n := nat_of_ascii c in (97 <=? n)%nat && (n <=? 122)%nat.

Fixpoint all_lower (word : string) : bool :=
  match word with
  | EmptyString => true
  | String a word' => is_lower a && all_lower word'
  end.

(** [str] spells [word], each letter in either case. *)
Fixpoint casing_of (word str : string) : Prop :=
  match word, str with
  | EmptyString, EmptyString => True
  | String a word', String c str' =>
      (c = a \/ c = toupper a) /\ casing_of word' str'
  | _, _ => False
  end.

(** The constants of a model: layers, kv heads, head dimension. *)
Definition config_of (m : OnnxModel) : Z * Z * Z :=
  (num_layers m, num_kv_heads m, head_dim m).

(* ===================================================================== *)
(** * Concrete engines and tensors for the examples *)
(* ===================================================================== *)

Module Fixtures.

Local Open Scope string_scope.

(** The binary32 value of an integer. *)
Definition f32 (z : Z) : float := binary_normalize 24 128 z 0 false.
Definition NaN : float := S754_nan.

Definition logits_of (xs : list float) : Value :=
  mkValue [1; 1; Z.of_nat (length xs)] (FloatData xs).

(** Logits over a vocabulary of [vocab] entries with one peak at [k]. *)
Definition peak (vocab : nat) (k : Z) : Value :=
  logits_of (map (fun j => if Z.eqb (Z.of_nat j) k then f32 1 else f32 0)
                 (seq 0 vocab)).

(** A session that leaves its inputs alone and answers by [answer]. *)
Definition session (ins outs : list string)
    (answer : list Value -> M (list Value)) : Session :=
  mkSession ins outs
    (fun inputs => mkRunResult (map GetTensorData inputs) (answer inputs)).

Definition hidden_state : Value := mkValue [1; 1; 2] (FloatData [f32 0; f32 0]).

Definition the_encoder : Session :=
  session ["input_values"] ["last_hidden_state"] (fun _ => Ret [hidden_state]).

(** The token a decoder input carries. *)
Definition input_token (inputs : list Value) : Z :=
  match inputs with
  | mkValue _ (Int64Data [t]) :: _ => t
  | _ => 0
  end.

Definition plain_names : list string :=
  ["input_ids"; "encoder_hidden_states"; "use_cache_branch"].

(** A decoder without cache inputs whose next token is [next] of the
    token it is fed. *)
Definition scripted_decoder (next : Z -> Z) : Session :=
  session plain_names ["logits"]
    (fun inputs => Ret [peak 8 (next (input_token inputs))]).

(** Says 5, then 7, then stops. *)
Definition script (t : Z) : Z :=
  if Z.eqb t 1 then 5 else if Z.eqb t 5 then 7 else 2.

Definition echo_tokenizer : Tokenizer :=
  mkTokenizer (fun _ => Ret "text").

Definition talking : Transcriber :=
  Transcriber_new ModelType.Tiny the_encoder (scripted_decoder script)
                  echo_tokenizer.

(** Stops at once. *)
Definition silent : Transcriber :=
  Transcriber_new ModelType.Tiny the_encoder
                  (scripted_decoder (fun _ => end_token)) echo_tokenizer.

(** Selects the value of the start token. *)
Definition stuttering : Transcriber :=
  Transcriber_new ModelType.Tiny the_encoder
                  (scripted_decoder (fun _ => start_token)) echo_tokenizer.

(** A decoder whose logits come out with shape [{1, 2, 3}]. *)
Definition misshapen : Transcriber :=
  Transcriber_new ModelType.Tiny the_encoder
    (session plain_names ["logits"]
       (fun _ => Ret [mkValue [1; 2; 3] (FloatData (map f32 [0; 0; 0; 0; 0; 0]))]))
    echo_tokenizer.

(** The inputs of a decoder graph that declares, for each layer, a key and
    a value cache input for the decoder and for the encoder attention. *)
Definition layer_names (l : nat) : list string :=
  let p := "past_key_values." ++ String (ascii_of_nat (48 + l)) "" in
  [p ++ ".decoder.key"; p ++ ".decoder.value";
   p ++ ".encoder.key"; p ++ ".encoder.value"].

Definition merged_decoder_names (layers : nat) : list string :=
  (["input_ids"; "encoder_hidden_states"]
   ++ concat (map layer_names (seq 0 layers))
   ++ ["use_cache_branch"])%list.

Definition tiny_model : OnnxModel :=
  OnnxModel_Tiny the_encoder
    (session (merged_decoder_names 6) ["logits"] (fun _ => Ret [peak 8 2])).

Definition one_second : list float := repeat (f32 0) (Z.to_nat 16000).

(** An encoder that clears the buffer it is handed. *)
Definition scribbling : Transcriber :=
  Transcriber_new ModelType.Tiny
    (mkSession ["input_values"] ["last_hidden_state"]
       (fun inputs =>
          mkRunResult
            (map (fun v => match GetTensorData v with
                           | FloatData xs => FloatData (map (fun _ => f32 0) xs)
                           | d => d
                           end) inputs)
            (Ret [hidden_state])))
    (scripted_decoder script) echo_tokenizer.

(** A cache output covering [t] tokens. *)
Definition kv_entry (t : Z) : Value :=
  mkValue [1; 1; t; 1] (FloatData (repeat (f32 0) (Z.to_nat t))).

(** A one-layer decoder with cache inputs and outputs, following
    [script]. *)
Definition caching : Transcriber :=
  Transcriber_new ModelType.Base the_encoder
    (session (merged_decoder_names 1) ["logits"]
       (fun inputs => Ret [peak 8 (script (input_token inputs));
                           kv_entry 1; kv_entry 1; kv_entry 3; kv_entry 3]))
    echo_tokenizer.

End Fixtures.

(* ===================================================================== *)
(** * Construction *)
(* ===================================================================== *)

(** What [std::filesystem::status] finds at a path; for a regular file,
    the characters that reading it through [std::ifstream] yields, none if
    it cannot be opened.  The query itself can fail (a name that is too
    long, a directory on the way that may not be searched): the throwing
    overloads of [exists] and [is_regular_file] then raise
    [filesystem_error]. *)
Inductive file_status : Type :=
| not_found
| regular_file (contents : string)
| not_regular
| query_failed.

(** What construction draws on: the file system, the creation of the
    engine's environment and memory information (the default arguments
    [default_env ()] and [default_memory_info ()]), the constructor of
    [Ort::Session] (model path, intra-op thread count) and
    [tokenizers::Tokenizer::FromBlobJSON]. *)
Record Loader : Type := mkLoader {
  status : string -> file_status;
  default_env : M unit;
  Session_new : string -> Z -> M Session;
  FromBlobJSON : string -> M Tokenizer
}.

Module Construct.

Local Open Scope string_scope.

(** [std::filesystem::exists (p)]. *)
Definition exists_ (L : Loader) (p : string) : M bool :=
  match status L p with
  | query_failed => Throw std_filesystem_error
  | not_found => Ret false
  | _ => Ret true
  end.

(** [std::filesystem::is_regular_file (p)]. *)
Definition is_regular_file (L : Loader) (p : string) : M bool :=
  match status L p with
  | query_failed => Throw std_filesystem_error
  | regular_file _ => Ret true
  | _ => Ret false
  end.

(** [buffer << ifs.rdbuf (); buffer.str ()]. *)
Definition slurp (L : Loader) (p : string) : string :=
  match status L p with
  | regular_file contents => contents
  | _ => ""
  end.

(** [OnnxModel::OnnxModel], called with its default arguments: the
    environment is created, both paths are checked, then both sessions are
    created, then the names are read. *)
Definition new_OnnxModel (L : Loader) (encoder_path decoder_path : string)
    (num_layers num_kv_heads head_dim num_threads : Z) : M OnnxModel :=
  let* _ := default_env L in
  let* encoder_is_file := is_regular_file L encoder_path in
  if negb encoder_is_file
  then Throw (std_runtime_error
                ("Encoder path is not a regular file: " ++ encoder_path))
  else
    let* decoder_is_file := is_regular_file L decoder_path in
    if negb decoder_is_file
    then Throw (std_runtime_error
                  ("Decoder path is not a regular file: " ++ decoder_path))
    else
      let* enc := Session_new L encoder_path num_threads in
      let* dec := Session_new L decoder_path num_threads in
      Ret (OnnxModel_new enc dec num_layers num_kv_heads head_dim).

(** [OnnxModel::Base] and [OnnxModel::Tiny]. *)
Definition Base (L : Loader) (encoder_path decoder_path : string)
    (num_threads : Z) : M OnnxModel :=
  new_OnnxModel L encoder_path decoder_path 8 8 52 num_threads.

Definition Tiny (L : Loader) (encoder_path decoder_path : string)
    (num_threads : Z) : M OnnxModel :=
  new_OnnxModel L encoder_path decoder_path 6 8 36 num_threads.

(** [Transcriber::Transcriber]. *)
Definition new_Transcriber (L : Loader) (model_type : ModelType.Type_)
    (encoder_path decoder_path tokenizer_path : string) (num_threads : Z)
    : M Transcriber :=
  let* tokenizer_exists := exists_ L tokenizer_path in
  if negb tokenizer_exists
  then Throw (std_runtime_error ("File not found: " ++ tokenizer_path))
  else
    let* tokenizer_is_file := is_regular_file L tokenizer_path in
    if negb tokenizer_is_file
    then Throw (std_runtime_error ("Not a regular file: " ++ tokenizer_path))
    else
      let* tok := FromBlobJSON L (slurp L tokenizer_path) in
      let* m := match model_type with
                | ModelType.Base => Base L encoder_path decoder_path num_threads
                | ModelType.Tiny => Tiny L encoder_path decoder_path num_threads
                end in
      Ret (mkTranscriber m tok).

End Construct.

(* ===================================================================== *)
(** * More notions used in the statements *)
(* ===================================================================== *)

(** A pass that goes on to the next one. *)
Definition decode_continues_to (m : OnnxModel) (s s' : loop_state) : Prop :=
  decode_step m s = Ret (Continue s').

(** [s] occurs in [str]: some characters, then [pat], then the rest. *)
Definition occurs_in (pat str : string) : Prop :=
  exists pre post, str = (pre ++ pat ++ post)%string.

(** The decoder inputs that name no cache entry. *)
Definition other_names (m : OnnxModel) : list string :=
  List.filter (fun key => negb (contains key past_key_prefix))
              (decoder_input_names m).

(** The tensors [decode_next_token] hands to the decoder. *)
Definition decoder_inputs (cur : list Z) (hidden : Value)
    (cache : list Value) (use_cache_branch : bool) : list Value :=
  mkValue [1; Z.of_nat (length cur)] (Int64Data cur)
  :: hidden :: cache ++ [bool_tensor use_cache_branch].

(* ===================================================================== *)
(** * More concrete engines, files and models for the examples *)
(* ===================================================================== *)

Module MoreFixtures.

Import Fixtures.
Local Open Scope string_scope.

(** A disk with a tokenizer file, two model files, a directory, and a
    directory that may not be searched. *)
Definition disk_status (p : string) : file_status :=
  if String.eqb p "tokenizer.json" then regular_file "{}"
  else if String.eqb p "encoder.onnx" then regular_file "onnx"
  else if String.eqb p "decoder.onnx" then regular_file "onnx"
  else if String.eqb p "broken.onnx" then regular_file ""
  else if String.eqb p "models" then not_regular
  else if String.eqb p "locked/tokenizer.json" then query_failed
  else not_found.

Definition disk : Loader :=
  mkLoader disk_status (Ret tt)
    (fun p _ =>
       if String.eqb p "encoder.onnx" then Ret the_encoder
       else if String.eqb p "decoder.onnx" then Ret (scripted_decoder script)
       else Throw Ort_Exception)
    (fun _ => Ret echo_tokenizer).

(** A decoder graph that declares two inputs only. *)
Definition two_input_model : OnnxModel :=
  OnnxModel_Tiny the_encoder
    (session ["input_ids"; "past_key_values.0.decoder.key"] ["logits"]
       (fun _ => Ret [peak 8 2])).

(** An encoder that returns no tensor. *)
Definition deaf : Transcriber :=
  Transcriber_new ModelType.Tiny
    (session ["input_values"] [] (fun _ => Ret []))
    (scripted_decoder script) echo_tokenizer.

(** A decoder whose [Run] raises. *)
Definition failing : Transcriber :=
  Transcriber_new ModelType.Tiny the_encoder
    (session plain_names ["logits"] (fun _ => Throw Ort_Exception))
    echo_tokenizer.

(** A decoder that never selects the end token. *)
Definition endless : Transcriber :=
  Transcriber_new ModelType.Tiny the_encoder
    (scripted_decoder (fun t => Z.add t 2)) echo_tokenizer.

Definition four_new_values : list Value :=
  [kv_entry 1; kv_entry 1; kv_entry 3; kv_entry 3].

(** A decoder that follows [script] and overwrites the hidden state it is
    handed (its second input) with ones. *)
Definition overwriting : Transcriber :=
  Transcriber_new ModelType.Tiny the_encoder
    (mkSession plain_names ["logits"]
       (fun inputs =>
          mkRunResult
            (imap (fun k v => match k, GetTensorData v with
                              | 1%nat, FloatData xs =>
                                  FloatData (map (fun _ => f32 1) xs)
                              | _, d => d
                              end) inputs)
            (Ret [peak 8 (script (input_token inputs))])))
    echo_tokenizer.

End MoreFixtures.

(* ===================================================================== *)
(** * The call operator *)
(* ===================================================================== *)

(** C10.  [Transcriber::operator()] gives, on every audio input, exactly
    what [Transcriber::transcribe] gives on it: the same string (or the same
    abnormal end), the same tokenizer calls, the same buffer afterwards. *)
Theorem call_operator_is_transcribe (t : Transcriber) (audio_data : list float) :
  call_operator t audio_data = transcribe t audio_data.
Proof. reflexivity. Qed.

(* ===================================================================== *)
(** * The order of [float] values *)
(* ===================================================================== *)

Module FloatOrder.

(** Case analysis on every float in sight and on every exponent and
    mantissa comparison that the IEEE comparison then exposes. *)
Ltac compare_cases :=
  repeat match goal with
  | |- context [Z.compare ?a ?b] => destruct (Z.compare_spec a b); subst
  | |- context [Pos.compare_cont Eq ?a ?b] =>
      change (Pos.compare_cont Eq a b) with (Pos.compare a b);
      destruct (Pos.compare_spec a b); subst
  | H : context [Z.compare ?a ?b] |- _ => destruct (Z.compare_spec a b); subst
  | H : context [Pos.compare_cont Eq ?a ?b] |- _ =>
      change (Pos.compare_cont Eq a b) with (Pos.compare a b) in H;
      destruct (Pos.compare_spec a b); subst
  end.

Ltac float_order :=
  unfold float_lt, float_le, SFltb, SFleb;
  repeat match goal with
  | x : float |- _ => destruct x as [[]|[]| |[] ? ?]
  end;
  simpl; try congruence;
  intros; compare_cases; simpl in *; try congruence; try lia.

Lemma lt_le (a b : float) : float_lt a b = true -> float_le a b = true.
Proof. float_order. Qed.

(** Only a NaN fails to compare with itself. *)
Lemma le_refl (a : float) : a <> S754_nan -> float_le a a = true.
Proof. float_order. Qed.

Lemma le_refl_l (a b : float) : float_le a b = true -> float_le a a = true.
Proof. float_order. Qed.

Lemma le_not_lt (a b : float) : float_le a b = true -> float_lt b a = false.
Proof. float_order. Qed.

Lemma total (a b : float) :
  float_le a a = true -> float_le b b = true ->
  float_lt a b = false -> float_le b a = true.
Proof. float_order. Qed.

Lemma le_lt_trans (a b c : float) :
  float_le a b = true -> float_lt b c = true -> float_lt a c = true.
Proof. float_order. Qed.

End FloatOrder.

(* ===================================================================== *)
(** * Greedy token selection *)
(* ===================================================================== *)

Section MaxElement.

Local Open Scope nat_scope.

(** The scan, started after the prefix [pre] with its best position so
    far, ends on a position that holds a greatest element and that every
    earlier element is strictly below. *)
Lemma max_element_from_spec (rest : list float) :
  forall (pre : list float) (largest : nat) (lv : float),
  (forall x, x ∈ pre ++ rest -> float_le x x = true) ->
  pre !! largest = Some lv ->
  (forall j x, pre !! j = Some x -> float_le x lv = true) ->
  (forall j x, j < largest -> pre !! j = Some x -> float_lt x lv = true) ->
  exists y,
    (pre ++ rest) !! max_element_from largest lv (length pre) rest = Some y /\
    (forall j x, (pre ++ rest) !! j = Some x -> float_le x y = true) /\
    (forall j x, j < max_element_from largest lv (length pre) rest ->
                 (pre ++ rest) !! j = Some x -> float_lt x y = true).
Proof.
  induction rest as [|x rest IH]; intros pre largest lv Hnan Hl Hle Hlt; simpl.
  - rewrite app_nil_r. eauto.
  - assert (Hx : float_le x x = true)
      by (apply Hnan, elem_of_app; right; left).
    assert (Hlv : float_le lv lv = true) by eauto.
    specialize (IH (pre ++ [x])).
    rewrite <- (assoc_L (++)) in IH. simpl in IH.
    rewrite length_app, Nat.add_1_r in IH.
    destruct (float_lt lv x) eqn:Hcmp.
    + apply IH; auto.
      * apply list_lookup_middle; auto.
      * intros j y Hj. apply lookup_app_Some in Hj as [Hj | [Hge Hj]].
        -- apply FloatOrder.lt_le. eapply FloatOrder.le_lt_trans; eauto.
        -- destruct (j - length pre); simpl in Hj; [congruence | discriminate].
      * intros j y Hjlt Hj. rewrite lookup_app_l in Hj by lia.
        eapply FloatOrder.le_lt_trans; eauto.
    + apply IH; auto.
      * rewrite lookup_app_l; auto. eapply lookup_lt_Some; eauto.
      * intros j y Hj. apply lookup_app_Some in Hj as [Hj | [Hge Hj]]; eauto.
        destruct (j - length pre); simpl in Hj; [|discriminate].
        injection Hj as <-. apply FloatOrder.total; auto.
      * intros j y Hjlt Hj. apply lookup_lt_Some in Hl.
        rewrite lookup_app_l in Hj by lia. eauto.
Qed.

Lemma max_element_spec (l : list float) :
  l <> [] -> (forall x, x ∈ l -> float_le x x = true) ->
  exists y, l !! max_element l = Some y /\
    (forall j x, l !! j = Some x -> float_le x y = true) /\
    (forall j x, j < max_element l -> l !! j = Some x -> float_lt x y = true).
Proof.
  destruct l as [|x l]; [congruence|]. intros _ Hnan. simpl.
  apply (max_element_from_spec l [x] 0 x); auto.
  - intros [|j] y Hj; simpl in Hj; [|discriminate].
    injection Hj as <-. apply Hnan. left.
  - intros; lia.
Qed.

(** A vocabulary that is not empty and holds no NaN has a maximum, and the
    scan finds it. *)
Lemma max_element_attains (l : list float) :
  l <> [] -> (forall x, x ∈ l -> float_le x x = true) ->
  attains_max l (max_element l).
Proof.
  intros Hne Hnan. destruct (max_element_spec l Hne Hnan) as (y & ? & ? & _).
  exists y; auto.
Qed.

(** Whatever position attains the maximum, the scan returns one that does
    and that is not after it. *)
Lemma max_element_least (l : list float) (k : nat) :
  attains_max l k -> attains_max l (max_element l) /\ max_element l <= k.
Proof.
  intros (y & Hk & Hmax).
  destruct (max_element_spec l) as (z & Hr & Hle & Hlt).
  - intros ->. discriminate.
  - intros x Hx. apply list_elem_of_lookup in Hx as [j Hj].
    eapply FloatOrder.le_refl_l; eauto.
  - split; [exists z; auto|].
    destruct (le_lt_dec (max_element l) k) as [|Hgt]; [auto|].
    specialize (Hlt _ _ Hgt Hk). specialize (Hmax _ _ Hr).
    apply FloatOrder.le_not_lt in Hmax. congruence.
Qed.

Lemma max_element_from_bound (rest : list float) :
  forall largest lv first, largest < first ->
  max_element_from largest lv first rest < first + length rest.
Proof.
  induction rest as [|x rest IH]; intros largest lv first Hlt; simpl; [lia|].
  destruct (float_lt lv x).
  - specialize (IH first x (S first)). lia.
  - specialize (IH largest lv (S first)). lia.
Qed.

Lemma max_element_bound (l : list float) : max_element l <= length l.
Proof.
  destruct l as [|x l]; simpl; [lia|].
  pose proof (max_element_from_bound l 0 x 1). lia.
Qed.

End MaxElement.

Lemma to_int_small (z : Z) : 0 <= z <= INT_MAX -> to_int z = z.
Proof.
  unfold to_int, INT_MAX. intros H.
  rewrite Z.mod_small; lia.
Qed.

(** C4.  On a logits tensor of shape [{1, 1, V}] (its buffer holding the
    [V] floats, [V] within the range of the [int] returned),
    [get_next_token] returns the position [std::max_element] stops at;
    whenever some position attains the maximum logit, that position attains
    it too and no earlier one does: the first occurrence wins.  A
    vocabulary that is not empty and holds no NaN always has such a
    position.  On a tensor of any other shape the function raises
    [std::runtime_error] and returns no token. *)
Theorem get_next_token_greedy (logits : Value) :
  (forall V xs,
     GetShape logits = [1; 1; V] ->
     GetTensorData logits = FloatData xs ->
     Z.of_nat (length xs) = V -> V <= INT_MAX ->
     get_next_token logits = Ret (Z.of_nat (max_element xs)) /\
     (forall k, attains_max xs k ->
        attains_max xs (max_element xs) /\ (max_element xs <= k)%nat) /\
     (0 < V -> (forall x, x ∈ xs -> x <> S754_nan) ->
      attains_max xs (max_element xs))) /\
  ((forall V, GetShape logits <> [1; 1; V]) ->
   get_next_token logits = Throw (std_runtime_error "Unexpected logits shape")).
Proof.
  split.
  - intros V xs Hshape Hdata Hlen Hint. split.
    + unfold get_next_token. rewrite Hshape. simpl.
      rewrite Hdata. unfold read_floats.
      replace ((0 <=? V) && (V <=? Z.of_nat (length xs))) with true
        by (symmetry; apply andb_true_iff; split; apply Z.leb_le; lia).
      simpl. rewrite <- Hlen, Nat2Z.id, firstn_all.
      rewrite to_int_small; [reflexivity|].
      pose proof (max_element_bound xs). lia.
    + split; [intros k; apply max_element_least|].
      intros Hpos Hnan. apply max_element_attains.
      * intros ->. simpl in Hlen. lia.
      * intros x Hx. apply FloatOrder.le_refl, Hnan, Hx.
  - intros Hshape. unfold get_next_token.
    destruct (GetShape logits) as [|d0 [|d1 [|d2 [|]]]] eqn:E; try reflexivity.
    destruct (negb (d0 =? 1) || negb (d1 =? 1)) eqn:Hd; [reflexivity|].
    apply orb_false_iff in Hd as [H0 H1].
    apply negb_false_iff, Z.eqb_eq in H0, H1. subst.
    exfalso. apply (Hshape d2). reflexivity.
Qed.

(** A tensor with a maximum shared by two positions, and one of the wrong
    shape. *)
Lemma get_next_token_greedy_witness :
  let xs := map Fixtures.f32 [1; 3; 3; 2] in
  get_next_token (Fixtures.logits_of xs) = Ret 1 /\
  (max_element xs <= 2)%nat /\
  get_next_token (mkValue [1; 2; 3] (FloatData (map Fixtures.f32 [0; 0; 0; 0; 0; 0])))
  = Throw (std_runtime_error "Unexpected logits shape").
Proof.
  intros xs.
  destruct (get_next_token_greedy (Fixtures.logits_of xs)) as [Hgood _].
  destruct (Hgood 4 xs eq_refl eq_refl eq_refl) as (Hret & Hleast & _).
  { unfold INT_MAX. lia. }
  split; [exact Hret|]. split.
  - apply Hleast. exists (Fixtures.f32 3). split; [reflexivity|].
    intros [|[|[|[|j]]]] x Hx; simpl in Hx; try discriminate;
      injection Hx as <-; reflexivity.
  - apply get_next_token_greedy. intros V. simpl. discriminate.
Defined.

(** Where no position attains a maximum, an empty vocabulary or a NaN in
    front, the scan still answers, with position 0. *)
Lemma get_next_token_without_maximum :
  get_next_token (Fixtures.logits_of []) = Ret 0 /\
  get_next_token (Fixtures.logits_of [Fixtures.NaN; Fixtures.f32 3]) = Ret 0 /\
  float_le (Fixtures.f32 3) Fixtures.NaN = false.
Proof. repeat split. Qed.

(* ===================================================================== *)
(** * The KV cache *)
(* ===================================================================== *)

Section KVCache.

Local Open Scope nat_scope.

(** The test of [update_kv_cache] on one pair of entries. *)
Lemma replacement_test (c n : Value) (use_cache_branch : bool) :
  GetShape c <> [] -> 3 <= length (GetShape n) ->
  exists past0 tok,
    index (GetShape c) 0 = Ret past0 /\ index (GetShape n) 2 = Ret tok /\
    ((past0 =? 0)%Z || (1 <? tok)%Z || negb use_cache_branch = true
     <-> replacement_due c n use_cache_branch).
Proof.
  intros Hc Hn. unfold index, replacement_due, leading_dim_is_zero,
    third_axis_above_one.
  destruct (GetShape c) as [|p ps]; [congruence|].
  destruct (GetShape n) as [|q0 [|q1 [|q qs]]]; simpl in Hn; try lia.
  exists p, q. simpl. split; [reflexivity|]. split; [reflexivity|].
  rewrite !orb_true_iff, Z.eqb_eq, Z.ltb_lt, negb_true_iff.
  split.
  - intros [[->|H]|H]; auto. right; left. eauto.
  - intros [H|[(d & H & Hd)|H]]; auto.
    + left; left. congruence.
    + left; right. congruence.
Qed.

(** Entry by entry, up to the end of the shorter vector; the cache keeps
    its length. *)
Lemma update_kv_cache_pairwise (cache : list Value) :
  forall (new_values : list Value) (use_cache_branch : bool),
  Forall (fun c => GetShape c <> []) cache ->
  Forall (fun n => 3 <= length (GetShape n)) new_values ->
  exists cache',
    update_kv_cache cache new_values use_cache_branch = Ret cache' /\
    length cache' = length cache /\
    (forall k c n, cache !! k = Some c -> new_values !! k = Some n ->
       (replacement_due c n use_cache_branch -> cache' !! k = Some n) /\
       (~ replacement_due c n use_cache_branch -> cache' !! k = Some c)) /\
    (forall k, length new_values <= k -> cache' !! k = cache !! k).
Proof.
  induction cache as [|c cache IH]; intros new_values ucb Hc Hn.
  - exists []. simpl. split; [reflexivity|]. split; [reflexivity|].
    split; [|reflexivity]. intros k c n Hk. discriminate.
  - destruct new_values as [|n new_values].
    + exists (c :: cache). simpl. split; [reflexivity|]. split; [reflexivity|].
      split; [|reflexivity]. intros k c0 n _ Hk. discriminate.
    + inversion Hc as [|? ? Hc1 Hc2]; inversion Hn as [|? ? Hn1 Hn2]; subst.
      destruct (replacement_test c n ucb Hc1 Hn1) as (p & q & Hp & Hq & Hiff).
      destruct (IH new_values ucb Hc2 Hn2) as (rest & Hrest & Hlen & Hpair & Hkeep).
      simpl. rewrite Hp. simpl. rewrite Hq. simpl. rewrite Hrest. simpl.
      eexists. split; [reflexivity|]. split; [simpl; congruence|]. split.
      * intros [|k] c0 n0 Hck Hnk; simpl in *.
        -- injection Hck as <-. injection Hnk as <-.
           destruct ((p =? 0)%Z || (1 <? q)%Z || negb ucb) eqn:Htest.
           ++ split; [reflexivity|]. intros Hno. exfalso. apply Hno, Hiff.
              reflexivity.
           ++ split; [|reflexivity]. intros Hyes. apply Hiff in Hyes.
              discriminate.
        -- apply Hpair; assumption.
      * intros [|k] Hk; simpl in *; [lia|]. apply Hkeep. lia.
Qed.

Lemma update_kv_cache_length (cache : list Value) :
  forall new_values use_cache_branch cache',
  update_kv_cache cache new_values use_cache_branch = Ret cache' ->
  length cache' = length cache.
Proof.
  induction cache as [|c cache IH]; intros new_values ucb cache' H.
  - simpl in H. injection H as <-. reflexivity.
  - destruct new_values as [|n new_values].
    + simpl in H. injection H as <-. reflexivity.
    + simpl in H.
      destruct (index (GetShape c) 0); simpl in H; try discriminate.
      destruct (index (GetShape n) 2); simpl in H; try discriminate.
      destruct (update_kv_cache cache new_values ucb) as [rest| | |] eqn:E;
        simpl in H; try discriminate.
      injection H as <-. simpl. f_equal. eapply IH; eauto.
Qed.

Lemma empty_past_key_values_length (shape : list Z) (names : list string) :
  length (empty_past_key_values shape names)
  = length (List.filter (fun key => contains key past_key_prefix) names).
Proof.
  induction names as [|key names IH]; simpl; [reflexivity|].
  destruct (contains key past_key_prefix); simpl; congruence.
Qed.

Lemma initialize_past_key_values_length (m : OnnxModel) :
  length (initialize_past_key_values m) = length (past_key_names m).
Proof. apply empty_past_key_values_length. Qed.

End KVCache.

(** C2.  For cache and new-value vectors of equal length (cache entries of
    rank at least 1, new values of rank at least 3, so that the dimensions
    the policy reads exist), [update_kv_cache] returns a cache of the same
    length in which entry [k] is the new value [k] when the old entry's
    leading dimension is 0, or the new value's third axis exceeds 1, or
    [use_cache_branch] is false, and is the old entry [k] when none of the
    three holds. *)
Theorem update_kv_cache_policy
    (cache new_values : list Value) (use_cache_branch : bool) :
  length cache = length new_values ->
  Forall (fun c => GetShape c <> []) cache ->
  Forall (fun n => (3 <= length (GetShape n))%nat) new_values ->
  exists cache',
    update_kv_cache cache new_values use_cache_branch = Ret cache' /\
    length cache' = length cache /\
    forall k c n, cache !! k = Some c -> new_values !! k = Some n ->
      (replacement_due c n use_cache_branch -> cache' !! k = Some n) /\
      (~ replacement_due c n use_cache_branch -> cache' !! k = Some c).
Proof.
  intros _ Hc Hn.
  destruct (update_kv_cache_pairwise cache new_values use_cache_branch Hc Hn)
    as (cache' & H & Hlen & Hpair & _).
  exists cache'. auto.
Qed.

(** Two cache entries under the cache branch: the empty one is replaced,
    the filled one stays. *)
Lemma update_kv_cache_policy_witness :
  let empty := mkValue [0; 2; 1; 2] (FloatData []) in
  let filled := mkValue [1; 1; 1; 1] (FloatData [Fixtures.f32 7]) in
  let n0 := mkValue [1; 1; 1; 1] (FloatData [Fixtures.f32 9]) in
  let n1 := mkValue [1; 1; 1; 1] (FloatData [Fixtures.f32 8]) in
  exists cache',
    update_kv_cache [empty; filled] [n0; n1] true = Ret cache' /\
    cache' !! 0%nat = Some n0 /\ cache' !! 1%nat = Some filled.
Proof.
  intros empty filled n0 n1.
  destruct (update_kv_cache_policy [empty; filled] [n0; n1] true)
    as (cache' & Hrun & _ & Hpolicy).
  - reflexivity.
  - repeat constructor; discriminate.
  - repeat constructor.
  - exists cache'. split; [exact Hrun|]. split.
    + apply (Hpolicy 0%nat empty n0 eq_refl eq_refl). left. reflexivity.
    + apply (Hpolicy 1%nat filled n1 eq_refl eq_refl).
      intros [H|[(d & Hd & Hlt)|H]]; try discriminate.
      injection Hd as <-. lia.
Defined.

(* ===================================================================== *)
(** * The decode loop *)
(* ===================================================================== *)

Section DecodeLoop.

Variable m : OnnxModel.

Local Open Scope nat_scope.

(** What a pass that completes has done. *)
Lemma decode_step_inv (s : loop_state) (r : step) :
  decode_step m s = Ret r ->
  exists hidden cache output logits next_token,
    decode_next_token m (cur_tokens s) (last_hidden_state s)
                      (past_key_values s) (0 <? i s)
    = (hidden, cache, Ret output) /\
    at_ output 0 = Ret logits /\
    get_next_token logits = Ret next_token /\
    ((next_token = end_token /\
      r = Break (mkLoop (i s) hidden cache [next_token] (result_tokens s))) \/
     (next_token <> end_token /\
      exists cache',
        update_kv_cache cache (drop 1 output) (0 <? i s) = Ret cache' /\
        r = Continue (mkLoop (S (i s)) hidden cache' [next_token]
                             (result_tokens s ++ [next_token])))).
Proof.
  unfold decode_step.
  destruct (decode_next_token m (cur_tokens s) (last_hidden_state s)
              (past_key_values s) (0 <? i s)) as [[hidden cache] out].
  destruct out as [output| | |]; simpl; try discriminate.
  destruct (at_ output 0) as [logits| | |] eqn:Hat; simpl; try discriminate.
  destruct (get_next_token logits) as [t| | |] eqn:Ht; simpl; try discriminate.
  destruct (t =? end_token)%Z eqn:Hend.
  - intros [= <-]. apply Z.eqb_eq in Hend.
    exists hidden, cache, output, logits, t. repeat split; auto.
  - apply Z.eqb_neq in Hend.
    destruct (update_kv_cache cache (drop 1 output) (0 <? i s))
      as [cache'| | |] eqn:Hu; simpl; try discriminate.
    intros [= <-].
    exists hidden, cache, output, logits, t.
    repeat split; auto. right. eauto.
Qed.

Lemma decode_next_token_cache_length cur h pkv b hidden cache out :
  decode_next_token m cur h pkv b = (hidden, cache, out) ->
  length cache = length pkv.
Proof.
  unfold decode_next_token. intros [= _ <- _]. apply length_imap.
Qed.

(** A pass leaves the cache with as many entries as it found. *)
Lemma decode_steps_to_cache_length (s s' : loop_state) :
  decode_steps_to m s s' ->
  length (past_key_values s') = length (past_key_values s).
Proof.
  intros [H|H]; apply decode_step_inv in H
    as (hidden & cache & output & logits & t & Hd & _ & _ & Hr);
    apply decode_next_token_cache_length in Hd;
    destruct Hr as [[_ Hr]|[_ (cache' & Hu & Hr)]]; try discriminate;
    injection Hr as ->; simpl; auto.
  apply update_kv_cache_length in Hu. congruence.
Qed.

Lemma reachable_cache_length (s s' : loop_state) :
  rtc (decode_steps_to m) s s' ->
  length (past_key_values s') = length (past_key_values s).
Proof.
  induction 1 as [|s s1 s2 Hstep _ IH]; [reflexivity|].
  rewrite IH. apply decode_steps_to_cache_length, Hstep.
Qed.

(** The loop only moves along passes. *)
Lemma decode_loop_reaches (n : nat) :
  forall s s', decode_loop m n s = Ret s' -> rtc (decode_steps_to m) s s'.
Proof.
  induction n as [|n IH]; intros s s' H; simpl in H.
  - injection H as <-. constructor.
  - destruct (decode_step m s) as [[s1|s1]| | |] eqn:Hs; simpl in H;
      try discriminate.
    + injection H as <-. apply rtc_once. left. exact Hs.
    + eapply rtc_l; [right; exact Hs | apply IH, H].
Qed.

(** The tokens a run of the loop adds: at most one per pass, each one
    selected from logits, none the end token. *)
Lemma decode_loop_tokens (n : nat) :
  forall s s', decode_loop m n s = Ret s' ->
  exists gen,
    result_tokens s' = result_tokens s ++ gen /\
    length gen <= n /\ ~ In end_token gen /\ Forall selected gen.
Proof.
  induction n as [|n IH]; intros s s' H; simpl in H.
  - injection H as <-. exists []. rewrite app_nil_r. simpl.
    split; [reflexivity|]. split; [lia|]. split; [tauto | constructor].
  - destruct (decode_step m s) as [r| | |] eqn:Hs; simpl in H;
      try discriminate.
    apply decode_step_inv in Hs
      as (hidden & cache & output & logits & t & _ & _ & Ht & Hr).
    destruct Hr as [[_ ->]|[Hne (cache' & _ & ->)]].
    + injection H as <-. exists []. simpl. rewrite app_nil_r.
      split; [reflexivity|]. split; [lia|]. split; [tauto | constructor].
    + apply IH in H as (gen & Hres & Hlen & Hend & Hsel). simpl in Hres.
      exists (t :: gen). rewrite Hres, <- (assoc_L (++)). simpl.
      split; [reflexivity|]. split; [lia|]. split.
      * intros [Heq|Hin]; [congruence | auto].
      * constructor; [exists logits|]; auto.
Qed.

(** The token a completed pass selected is the one [pass_token] names. *)
Lemma decode_step_pass_token (s : loop_state) (r : step) :
  decode_step m s = Ret r ->
  exists t, pass_token m s = Ret t /\
    ((t = end_token /\ exists s', r = Break s') \/
     (t <> end_token /\ exists s',
        r = Continue s' /\ result_tokens s' = result_tokens s ++ [t])).
Proof.
  intros H. apply decode_step_inv in H
    as (hidden & cache & output & logits & t & Hd & Hat & Ht & Hr).
  exists t. split.
  - unfold pass_token. rewrite Hd. cbn [snd bind]. rewrite Hat. cbn [bind].
    exact Ht.
  - destruct Hr as [[He ->]|[Hne (cache' & _ & ->)]]; [left|right]; eauto.
Qed.

(** The tokens a run of the loop adds are those its passes select, one
    per pass, up to the end token or the number of passes allowed. *)
Lemma decode_loop_selects (n : nat) :
  forall s s', decode_loop m n s = Ret s' ->
  exists gen s1,
    result_tokens s' = result_tokens s ++ gen /\
    selects m s gen s1 /\
    (length gen = n \/ (length gen < n /\ pass_token m s1 = Ret end_token)).
Proof.
  induction n as [|n IH]; intros s s' H; simpl in H.
  - injection H as <-. exists [], s. rewrite app_nil_r.
    split; [reflexivity|]. split; [constructor | left; reflexivity].
  - destruct (decode_step m s) as [r| | |] eqn:Hs; simpl in H;
      try discriminate.
    destruct (decode_step_pass_token _ _ Hs)
      as (t & Hp & [[-> (s2 & ->)]|[Hne (s2 & -> & Hres2)]]).
    + injection H as <-. exists [], s. rewrite app_nil_r.
      apply decode_step_inv in Hs
        as (hidden & cache & output & logits & t & _ & _ & _ & Hr).
      destruct Hr as [[_ [= ->]]|[_ (cache' & _ & Hr)]]; [|discriminate].
      split; [reflexivity|]. split; [constructor|].
      right. split; [simpl; lia | exact Hp].
    + apply IH in H as (gen & s1 & Hres & Hsel & Hstop).
      exists (t :: gen), s1. rewrite Hres, Hres2, <- (assoc_L (++)).
      split; [reflexivity|]. split; [econstructor; eauto|].
      simpl. destruct Hstop as [Hl|[Hl Hp']]; [left | right; split]; auto; lia.
Qed.

End DecodeLoop.

(** C6 (as the code has it).  The cache is created with one entry for
    every decoder input whose name contains ["past_key_values"];
    [update_kv_cache] returns a cache of the length it was given; and so
    every state a decode run passes through holds exactly that many
    entries.  [num_layers] plays no part in the count. *)
Theorem kv_cache_entry_count (m : OnnxModel) :
  length (initialize_past_key_values m) = length (past_key_names m) /\
  (forall cache new_values use_cache_branch cache',
     update_kv_cache cache new_values use_cache_branch = Ret cache' ->
     length cache' = length cache) /\
  (forall hidden s,
     rtc (decode_steps_to m) (decode_init m hidden) s ->
     length (past_key_values s) = length (past_key_names m)) /\
  (forall hidden n s,
     decode_loop m n (decode_init m hidden) = Ret s ->
     length (past_key_values s) = length (past_key_names m)).
Proof.
  split; [apply initialize_past_key_values_length|].
  split; [intros; eapply update_kv_cache_length; eauto|].
  assert (Hreach : forall hidden s,
    rtc (decode_steps_to m) (decode_init m hidden) s ->
    length (past_key_values s) = length (past_key_names m)).
  { intros hidden s H. apply reachable_cache_length in H. rewrite H.
    apply initialize_past_key_values_length. }
  split; [exact Hreach|].
  intros hidden n s H. eapply Hreach, decode_loop_reaches, H.
Qed.

(** The Tiny model over the merged decoder graph: 6 layers, 24 cache
    inputs. *)
Lemma kv_cache_count_is_not_num_layers :
  num_layers Fixtures.tiny_model = 6 /\
  length (initialize_past_key_values Fixtures.tiny_model) = 24%nat /\
  Z.of_nat (length (initialize_past_key_values Fixtures.tiny_model))
  <> num_layers Fixtures.tiny_model.
Proof.
  split; [reflexivity|]. split; [reflexivity|]. vm_compute. discriminate.
Qed.

(** A one-layer decoder with four cache inputs, run for two passes. *)
Lemma kv_cache_entry_count_witness :
  let m := model Fixtures.caching in
  length (initialize_past_key_values m) = 4%nat /\
  exists s,
    decode_loop m 2 (decode_init m Fixtures.hidden_state) = Ret s /\
    i s = 2%nat /\ length (past_key_values s) = 4%nat.
Proof.
  intros m.
  destruct (kv_cache_entry_count m) as (Hinit & _ & _ & Hloop).
  split; [exact Hinit|].
  eexists. split; [vm_compute; reflexivity|]. split; [reflexivity|].
  exact (Hloop Fixtures.hidden_state 2%nat _ eq_refl).
Defined.

(** C5 (as the code has it).  The token sequence a decode run returns has
    at most [max (max_len, 1)] elements and does not contain the end token
    (2).  It is exactly the sequence of tokens that [get_next_token]
    selected from the decoder's output in the successive passes of the
    run, from the first pass on, up to the pass that selected the end
    token or up to the budget: the start token that seeds the decoder
    input is not copied into it.  The same holds of [run], with the hidden
    state the encoder returned and the budget of the sample count.
    Nothing excludes the value 1 from the selected tokens. *)
Theorem decode_tokens_bounded (m : OnnxModel) :
  (forall hidden max_len tokens,
     decode m hidden max_len = Ret tokens ->
     Z.of_nat (length tokens) <= max_token_count max_len /\
     ~ In end_token tokens /\
     exists s',
       selects m (decode_init m hidden) tokens s' /\
       (Z.of_nat (length tokens) = max_token_count max_len \/
        pass_token m s' = Ret end_token)) /\
  (forall audio_data tokens,
     snd (run m audio_data) = Ret tokens ->
     Z.of_nat (length tokens) <= token_budget (Z.of_nat (length audio_data)) /\
     ~ In end_token tokens /\
     exists hidden h s',
       snd (encode m audio_data) = Ret hidden /\ at_ hidden 0 = Ret h /\
       selects m (decode_init m h) tokens s' /\
       (Z.of_nat (length tokens)
        = token_budget (Z.of_nat (length audio_data)) \/
        pass_token m s' = Ret end_token)).
Proof.
  assert (Hdecode : forall hidden max_len tokens,
     decode m hidden max_len = Ret tokens ->
     Z.of_nat (length tokens) <= max_token_count max_len /\
     ~ In end_token tokens /\
     exists s',
       selects m (decode_init m hidden) tokens s' /\
       (Z.of_nat (length tokens) = max_token_count max_len \/
        pass_token m s' = Ret end_token)).
  { intros hidden max_len tokens H. unfold decode in H.
    destruct (decode_loop m (Z.to_nat (max_token_count max_len))
                (decode_init m hidden)) as [s| | |] eqn:Hloop;
      simpl in H; try discriminate.
    injection H as <-.
    assert (Hpos : 1 <= max_token_count max_len)
      by (unfold max_token_count, min_token_count; lia).
    pose proof (decode_loop_tokens _ _ _ _ Hloop)
      as (gen & Hres & Hlen & Hend & _).
    apply decode_loop_selects in Hloop as (gen' & s1 & Hres' & Hsel & Hstop).
    simpl in Hres, Hres'. subst gen gen'.
    split; [lia|]. split; [exact Hend|].
    exists s1. split; [exact Hsel|].
    destruct Hstop as [Hl|[_ Hp]]; [left; lia | right; exact Hp]. }
  split; [exact Hdecode|].
  intros audio_data tokens H. unfold run, run_body in H.
  destruct (encode m audio_data) as [audio' hidden] eqn:Henc. simpl in H.
  destruct hidden as [hidden| | |]; simpl in H; try discriminate.
  destruct (at_ hidden 0) as [h| | |] eqn:Hat; simpl in H; try discriminate.
  destruct (decode m h (max_len_of (Z.of_nat (length audio_data))))
    as [toks| | |] eqn:Hd; simpl in H; try discriminate.
  injection H as <-. apply Hdecode in Hd as (Hlen & Hend & s' & Hsel & Hstop).
  split; [exact Hlen|]. split; [exact Hend|].
  exists hidden, h, s'. auto.
Qed.

(** One second of audio: a budget of six, two tokens selected (5 from the
    start token, 7 from 5) before the pass that selects the end token. *)
Lemma decode_tokens_bounded_witness :
  snd (run (model Fixtures.talking) Fixtures.one_second) = Ret [5; 7] /\
  Z.of_nat (length [5; 7]) <= 6 /\ ~ In end_token [5; 7] /\
  exists h s',
    selects (model Fixtures.talking)
      (decode_init (model Fixtures.talking) h) [5; 7] s' /\
    pass_token (model Fixtures.talking) s' = Ret end_token.
Proof.
  assert (H : snd (run (model Fixtures.talking) Fixtures.one_second)
              = Ret [5; 7]) by (vm_compute; reflexivity).
  split; [exact H|].
  destruct (decode_tokens_bounded (model Fixtures.talking)) as [_ Hrun].
  destruct (Hrun Fixtures.one_second [5; 7] H)
    as (Hlen & Hend & hidden & h & s' & _ & _ & Hsel & Hstop).
  split; [exact Hlen|]. split; [exact Hend|].
  exists h, s'. split; [exact Hsel|].
  destruct Hstop as [Hl|Hp]; [|exact Hp].
  vm_compute in Hl. discriminate Hl.
Defined.

(** A decoder whose logits peak at position 1: the value of the start
    token is returned among the tokens. *)
Lemma decode_can_return_start_token_value :
  exists tokens,
    decode (model Fixtures.stuttering) Fixtures.hidden_state 0 = Ret tokens /\
    In start_token tokens.
Proof.
  exists [1]. split; [vm_compute; reflexivity | left; reflexivity].
Qed.

(* ===================================================================== *)
(** * The facade *)
(* ===================================================================== *)

Section Facade.

Variable t : Transcriber.
Variable audio_data : list float.

(** [run] never leaves by an exception. *)
Lemma run_noexcept (e : exn) : snd (run (model t) audio_data) <> Throw e.
Proof.
  unfold run. destruct (run_body (model t) audio_data) as [a [tokens|e'| |]];
    simpl; discriminate.
Qed.

(** How [transcribe] ends, by how the body of [run] ends. *)
Lemma transcribe_by_run_body :
  returned (transcribe t audio_data)
  = match snd (run_body (model t) audio_data) with
    | Ret [] => Ret EmptyString
    | Ret tokens => noexcept (Decode (tokenizer t) tokens)
    | Throw _ => Terminate
    | Terminate => Terminate
    | Undefined => Undefined
    end.
Proof.
  unfold transcribe, run.
  destruct (run_body (model t) audio_data) as [a [[|tok tokens]|e| |]];
    reflexivity.
Qed.

Lemma Decode_calls_by_run_body :
  Decode_calls (transcribe t audio_data)
  = match snd (run_body (model t) audio_data) with
    | Ret [] => []
    | Ret tokens => [tokens]
    | _ => []
    end.
Proof.
  unfold transcribe, run.
  destruct (run_body (model t) audio_data) as [a [[|tok tokens]|e| |]];
    reflexivity.
Qed.

Lemma audio_after_transcribe :
  audio_after (transcribe t audio_data) = fst (encode (model t) audio_data).
Proof.
  unfold transcribe, run, run_body.
  destruct (encode (model t) audio_data) as [a hidden]. simpl.
  match goal with
  | |- audio_after (match noexcept ?x with _ => _ end) = _ =>
      destruct x as [[|tok tokens]|e| |]; reflexivity
  end.
Qed.

End Facade.

(** C1 (as the code has it).  [transcribe] never lets an exception reach
    its caller, but it catches nothing.  When the body of [run] returns
    tokens, the call returns the empty string for no tokens and otherwise
    what the tokenizer's [Decode] returns.  When an exception is raised
    inside the call, by the engine, by [vector::at], by the shape check of
    [get_next_token] or by the tokenizer, the call does not return: the
    [noexcept] boundary ends the process. *)
Theorem transcribe_noexcept (t : Transcriber) (audio_data : list float) :
  (forall e, returned (transcribe t audio_data) <> Throw e) /\
  (snd (run_body (model t) audio_data) = Ret [] ->
   returned (transcribe t audio_data) = Ret EmptyString) /\
  (forall tokens text,
     snd (run_body (model t) audio_data) = Ret tokens -> tokens <> [] ->
     Decode (tokenizer t) tokens = Ret text ->
     returned (transcribe t audio_data) = Ret text) /\
  (forall e,
     snd (run_body (model t) audio_data) = Throw e ->
     returned (transcribe t audio_data) = Terminate) /\
  (forall tokens e,
     snd (run_body (model t) audio_data) = Ret tokens -> tokens <> [] ->
     Decode (tokenizer t) tokens = Throw e ->
     returned (transcribe t audio_data) = Terminate).
Proof.
  rewrite transcribe_by_run_body.
  split; [|split; [|split; [|split]]].
  - intros e.
    destruct (snd (run_body (model t) audio_data)) as [[|tok tokens]|e'| |];
      try discriminate.
    destruct (Decode (tokenizer t) (tok :: tokens)); discriminate.
  - intros ->. reflexivity.
  - intros tokens text -> Hne Hd. destruct tokens; [congruence|].
    rewrite Hd. reflexivity.
  - intros e ->. reflexivity.
  - intros tokens e -> Hne Hd. destruct tokens; [congruence|].
    rewrite Hd. reflexivity.
Qed.

(** A run that returns text, and a run whose logits have the wrong
    shape. *)
Lemma transcribe_noexcept_witness :
  returned (transcribe Fixtures.talking Fixtures.one_second) = Ret "text"%string /\
  returned (transcribe Fixtures.misshapen []) = Terminate.
Proof.
  split.
  - destruct (transcribe_noexcept Fixtures.talking Fixtures.one_second)
      as (_ & _ & Htext & _).
    apply (Htext [5; 7]); [vm_compute; reflexivity | discriminate | reflexivity].
  - destruct (transcribe_noexcept Fixtures.misshapen [])
      as (_ & _ & _ & Hthrow & _).
    apply (Hthrow (std_runtime_error "Unexpected logits shape")).
    vm_compute. reflexivity.
Defined.

(** The shape check of [get_next_token] fails inside the call: no empty
    string comes back. *)
Lemma transcribe_does_not_catch :
  snd (run_body (model Fixtures.misshapen) [])
  = Throw (std_runtime_error "Unexpected logits shape") /\
  returned (transcribe Fixtures.misshapen []) = Terminate /\
  returned (transcribe Fixtures.misshapen []) <> Ret EmptyString.
Proof.
  split; [vm_compute; reflexivity|].
  split; [vm_compute; reflexivity|].
  vm_compute. discriminate.
Qed.

Lemma max_token_count_positive (max_len : Z) :
  exists n, Z.to_nat (max_token_count max_len) = S n.
Proof.
  unfold max_token_count, min_token_count.
  exists (Z.to_nat (Z.max max_len 1) - 1)%nat. lia.
Qed.

(** C7.  When the first pass of the decode loop selects the end token, the
    run returns no token; and whenever the run returns no token,
    [transcribe] returns the empty string and the tokenizer's [Decode] is
    not called. *)
Theorem transcribe_short_circuit (t : Transcriber) (audio_data : list float) :
  (first_step_yields_end_token (model t) audio_data ->
   snd (run (model t) audio_data) = Ret []) /\
  (snd (run (model t) audio_data) = Ret [] ->
   returned (transcribe t audio_data) = Ret EmptyString /\
   Decode_calls (transcribe t audio_data) = []).
Proof.
  split.
  - intros (hidden & h & output & logits & Henc & Hat & Hdec & Hlog & Htok).
    unfold run, run_body.
    destruct (encode (model t) audio_data) as [a hid]. simpl in Henc.
    subst hid. cbn [bind]. rewrite Hat. cbn [bind]. unfold decode.
    destruct (max_token_count_positive
                (max_len_of (Z.of_nat (length audio_data)))) as [n ->].
    cbn [decode_loop]. unfold decode_step.
    change (i (decode_init (model t) h)) with 0%nat.
    change (0 <? 0)%nat with false.
    change (cur_tokens (decode_init (model t) h)) with [start_token].
    change (last_hidden_state (decode_init (model t) h)) with h.
    change (past_key_values (decode_init (model t) h))
      with (initialize_past_key_values (model t)).
    destruct (decode_next_token (model t) [start_token] h
                (initialize_past_key_values (model t)) false)
      as [[hidden' cache] out].
    simpl in Hdec. subst out. cbn [bind]. rewrite Hlog. cbn [bind].
    rewrite Htok. reflexivity.
  - intros H. unfold transcribe.
    destruct (run (model t) audio_data) as [a tokens]. simpl in H.
    subst tokens. split; reflexivity.
Qed.

(** A decoder that answers the start token with the end token. *)
Lemma transcribe_short_circuit_witness :
  snd (run (model Fixtures.silent) Fixtures.one_second) = Ret [] /\
  returned (transcribe Fixtures.silent Fixtures.one_second) = Ret EmptyString /\
  Decode_calls (transcribe Fixtures.silent Fixtures.one_second) = [].
Proof.
  destruct (transcribe_short_circuit Fixtures.silent Fixtures.one_second)
    as [Hfirst Hempty].
  assert (Hrun : snd (run (model Fixtures.silent) Fixtures.one_second) = Ret []).
  { apply Hfirst.
    exists [Fixtures.hidden_state], Fixtures.hidden_state,
           [Fixtures.peak 8 end_token], (Fixtures.peak 8 end_token).
    repeat split; vm_compute; reflexivity. }
  split; [exact Hrun | exact (Hempty Hrun)].
Defined.

(** C9.  With an engine whose encoder [Run] leaves the buffers of its
    inputs as it found them, the caller's samples after [transcribe] are
    the samples before it, however the call ends: no statement of the
    facade or of the model writes to the buffer. *)
Theorem transcribe_leaves_audio (t : Transcriber) (audio_data : list float) :
  reads_only (encoder (model t)) ->
  audio_after (transcribe t audio_data) = audio_data.
Proof.
  intros Hro. rewrite audio_after_transcribe.
  unfold encode, call_Run.
  destruct (length _ <=? length _)%nat; simpl; [|reflexivity].
  rewrite Hro. reflexivity.
Qed.

Lemma transcribe_leaves_audio_witness :
  audio_after (transcribe Fixtures.talking (map Fixtures.f32 [3; 1; 4; 1; 5]))
  = map Fixtures.f32 [3; 1; 4; 1; 5].
Proof.
  apply transcribe_leaves_audio. intros inputs. reflexivity.
Defined.

(* ===================================================================== *)
(** * The [double] arithmetic of [run] *)
(* ===================================================================== *)

(** The operations of [SpecFloat] on binary64 are followed step by step:
    the mantissa is shifted to 53 bits with the position of the discarded
    part kept as a [location], rounded to nearest even, and shifted once
    more when the rounding carries.  Each of the three operations of [run]
    (conversion of the sample count, division by the sample rate,
    multiplication by the tokens per second) is shown to return the
    rounding of the exact result; the rounding is monotone, within
    [2^-53] of what it rounds, and exact on what is representable. *)
Module Binary64.

(** ** The number of binary digits *)

Lemma digits2_pos_bounds (p : positive) :
  2 ^ (Zpos (digits2_pos p) - 1) <= Zpos p < 2 ^ Zpos (digits2_pos p).
Proof.
  induction p as [p IH|p IH|]; cbn [digits2_pos].
  - rewrite Pos2Z.inj_succ, (Pos2Z.inj_xI p).
    replace (Z.succ (Zpos (digits2_pos p)) - 1)
      with (Z.succ (Zpos (digits2_pos p) - 1)) by lia.
    rewrite !Z.pow_succ_r by lia.
    set (u := 2 ^ (Zpos (digits2_pos p) - 1)) in *.
    set (v := 2 ^ Zpos (digits2_pos p)) in *. clearbody u v. lia.
  - rewrite Pos2Z.inj_succ, (Pos2Z.inj_xO p).
    replace (Z.succ (Zpos (digits2_pos p)) - 1)
      with (Z.succ (Zpos (digits2_pos p) - 1)) by lia.
    rewrite !Z.pow_succ_r by lia.
    set (u := 2 ^ (Zpos (digits2_pos p) - 1)) in *.
    set (v := 2 ^ Zpos (digits2_pos p)) in *. clearbody u v. lia.
  - simpl. lia.
Qed.

Lemma Zdigits2_bounds (m : Z) :
  0 < m -> 2 ^ (Zdigits2 m - 1) <= m < 2 ^ Zdigits2 m.
Proof.
  destruct m as [|p|p]; try lia. intros _. apply digits2_pos_bounds.
Qed.

Lemma Zdigits2_unique (m d : Z) :
  2 ^ (d - 1) <= m < 2 ^ d -> 0 < d -> Zdigits2 m = d.
Proof.
  intros [Hlo Hhi] Hd.
  assert (Hm : 0 < m) by (pose proof (Z.pow_pos_nonneg 2 (d - 1)); lia).
  destruct (Zdigits2_bounds m Hm) as [Hlo' Hhi'].
  assert (Hpos : 0 < Zdigits2 m) by (destruct m; simpl; lia).
  destruct (Z.lt_trichotomy (Zdigits2 m) d) as [Hlt|[Heq|Hgt]]; [|exact Heq|].
  - assert (2 ^ Zdigits2 m <= 2 ^ (d - 1)) by (apply Z.pow_le_mono_r; lia). lia.
  - assert (2 ^ d <= 2 ^ (Zdigits2 m - 1)) by (apply Z.pow_le_mono_r; lia). lia.
Qed.

(** ** Shifting right keeps the location *)

Lemma shr_record_of_loc_inv (m : Z) (l : location) :
  shr_m (shr_record_of_loc m l) = m /\
  loc_of_shr_record (shr_record_of_loc m l) = l.
Proof. destruct l as [|[]]; split; reflexivity. Qed.

Lemma shr_1_inbetween (a b : Z) (mrs : shr_record) :
  0 < b -> 0 <= shr_m mrs ->
  inbetween a b (shr_m mrs) (loc_of_shr_record mrs) ->
  inbetween a (2 * b) (shr_m (shr_1 mrs)) (loc_of_shr_record (shr_1 mrs)) /\
  shr_m (shr_1 mrs) = shr_m mrs / 2.
Proof.
  intros Hb Hm. destruct mrs as [m r s]. cbn [shr_m] in Hm.
  destruct m as [|[p|p|]|]; try lia.
  - destruct r, s; cbn [shr_1 shr_m loc_of_shr_record orb inbetween]; intros H;
      (split; [nia|reflexivity]).
  - destruct r, s; cbn [shr_1 shr_m loc_of_shr_record orb inbetween];
      rewrite (Pos2Z.inj_xI p); intros H;
      (split; [nia|apply Z.div_unique with (r := 1); lia]).
  - destruct r, s; cbn [shr_1 shr_m loc_of_shr_record orb inbetween];
      rewrite (Pos2Z.inj_xO p); intros H;
      (split; [nia|apply Z.div_unique with (r := 0); lia]).
  - destruct r, s; cbn [shr_1 shr_m loc_of_shr_record orb inbetween]; intros H;
      (split; [nia|reflexivity]).
Qed.

Lemma iter_pos_shr_1_inbetween (p : positive) :
  forall (a b : Z) (mrs : shr_record),
  0 < b -> 0 <= shr_m mrs ->
  inbetween a b (shr_m mrs) (loc_of_shr_record mrs) ->
  inbetween a (2 ^ Zpos p * b) (shr_m (SpecFloat.iter_pos shr_1 p mrs))
     (loc_of_shr_record (SpecFloat.iter_pos shr_1 p mrs)) /\
  shr_m (SpecFloat.iter_pos shr_1 p mrs) = shr_m mrs / 2 ^ Zpos p.
Proof.
  induction p as [p IH|p IH|]; intros a b mrs Hb Hm H; cbn [SpecFloat.iter_pos].
  - destruct (shr_1_inbetween a b mrs Hb Hm H) as [H1 E1].
    assert (Hm1 : 0 <= shr_m (shr_1 mrs))
      by (rewrite E1; apply Z.div_pos; lia).
    destruct (IH a (2 * b) _ ltac:(lia) Hm1 H1) as [H2 E2].
    assert (Hp : 0 < 2 ^ Zpos p) by (apply Z.pow_pos_nonneg; lia).
    assert (Hm2 : 0 <= shr_m (SpecFloat.iter_pos shr_1 p (shr_1 mrs)))
      by (rewrite E2; apply Z.div_pos; lia).
    destruct (IH a (2 ^ Zpos p * (2 * b)) _ ltac:(lia) Hm2 H2) as [H3 E3].
    rewrite (Pos2Z.inj_xI p).
    replace (2 * Zpos p + 1) with (Zpos p + Zpos p + 1) by lia.
    rewrite !Z.pow_add_r by lia. change (2 ^ 1) with 2.
    split.
    + replace (2 ^ Zpos p * 2 ^ Zpos p * 2 * b)
        with (2 ^ Zpos p * (2 ^ Zpos p * (2 * b))) by ring. exact H3.
    + rewrite E3, E2, E1. rewrite !Z.div_div by lia. f_equal. ring.
  - destruct (IH a b mrs Hb Hm H) as [H2 E2].
    assert (Hp : 0 < 2 ^ Zpos p) by (apply Z.pow_pos_nonneg; lia).
    assert (Hm2 : 0 <= shr_m (SpecFloat.iter_pos shr_1 p mrs))
      by (rewrite E2; apply Z.div_pos; lia).
    destruct (IH a (2 ^ Zpos p * b) _ ltac:(lia) Hm2 H2) as [H3 E3].
    rewrite (Pos2Z.inj_xO p).
    replace (2 * Zpos p) with (Zpos p + Zpos p) by lia.
    rewrite !Z.pow_add_r by lia.
    split.
    + replace (2 ^ Zpos p * 2 ^ Zpos p * b)
        with (2 ^ Zpos p * (2 ^ Zpos p * b)) by ring. exact H3.
    + rewrite E3, E2. rewrite !Z.div_div by lia. reflexivity.
  - change (2 ^ 1) with 2. apply shr_1_inbetween; assumption.
Qed.

(** ** Round to nearest, ties to even *)

Lemma round_nearest_even_inbetween (a b m : Z) (l : location) :
  0 < b -> inbetween a b m l ->
  let m1 := round_nearest_even m l in
  (2 * m1 - 1) * b <= 2 * a <= (2 * m1 + 1) * b /\
  m <= m1 <= m + 1 /\
  (2 * a = (2 * m1 - 1) * b \/ 2 * a = (2 * m1 + 1) * b -> Z.even m1 = true) /\
  m * b <= a < (m + 1) * b.
Proof.
  intros Hb H. destruct l as [|[]]; cbn [inbetween round_nearest_even] in *.
  - repeat split; try nia; try (intros [E|E]; nia).
  - destruct (Z.even m) eqn:Ev.
    + repeat split; try nia. intros _. exact Ev.
    + repeat split; try nia. intros _.
      rewrite Z.even_add, Ev. reflexivity.
  - repeat split; try nia; try (intros [E|E]; nia).
  - repeat split; try nia; try (intros [E|E]; nia).
Qed.


(** ** Values *)

Local Open Scope Q_scope.

Lemma pow2_pos (e : Z) : 0 < 2 ^ e.
Proof. apply Qpower_0_lt. reflexivity. Qed.

Lemma pow2_add (e f : Z) : 2 ^ (e + f) == 2 ^ e * 2 ^ f.
Proof. apply Qpower_plus. discriminate. Qed.

Lemma pow2_Z (k : Z) : (0 <= k)%Z -> inject_Z (2 ^ k) == 2 ^ k.
Proof. intros H. apply (Zpower_Qpower 2 k H). Qed.

Lemma pow2_le (e f : Z) : (e <= f)%Z -> 2 ^ e <= 2 ^ f.
Proof. intros H. apply Qpower_le_compat_l; [exact H|]. discriminate. Qed.

Lemma pow2_succ (e : Z) : 2 ^ (e + 1) == 2 * 2 ^ e.
Proof. rewrite pow2_add. change (2 ^ 1) with 2. ring. Qed.

Lemma rounds_ext (x y : Q) (m : positive) (e : Z) :
  x == y -> rounds_to x m e -> rounds_to y m e.
Proof.
  intros E [H1 H2 H3 H4 H5]. split; try assumption.
  - rewrite <- E. exact H2.
  - rewrite <- E. exact H3.
  - intros H. rewrite <- E. auto.
  - rewrite <- E. exact H5.
Qed.

(** Integer inequalities at scale [2^k * b], read on values. *)
Lemma scaled (a b c k ex : Z) :
  (0 < b)%Z -> (0 <= k)%Z ->
  inject_Z c * inject_Z (2 ^ k * b) * (2 ^ ex / inject_Z b)
  == inject_Z c * 2 ^ (ex + k).
Proof.
  intros Hb Hk. rewrite inject_Z_mult, pow2_Z by exact Hk.
  rewrite pow2_add. field.
  unfold Qeq; simpl; lia.
Qed.


Lemma to_val_le (a b c k ex : Z) :
  (0 < b)%Z -> (0 <= k)%Z -> (c * (2 ^ k * b) <= a)%Z ->
  inject_Z c * 2 ^ (ex + k) <= inject_Z a / inject_Z b * 2 ^ ex.
Proof.
  intros Hb Hk H. rewrite <- (scaled a b c k ex Hb Hk).
  rewrite <- inject_Z_mult.
  assert (Hq : inject_Z (c * (2 ^ k * b)) <= inject_Z a)
    by (rewrite <- Zle_Qle; exact H).
  assert (Hf : 0 < 2 ^ ex / inject_Z b).
  { apply Qlt_shift_div_l; [unfold Qlt; simpl; lia|].
    rewrite Qmult_0_l. apply pow2_pos. }
  setoid_replace (inject_Z a / inject_Z b * 2 ^ ex)
    with (inject_Z a * (2 ^ ex / inject_Z b)) using relation Qeq.
  - apply Qmult_le_compat_r; [exact Hq|apply Qlt_le_weak; exact Hf].
  - field. unfold Qeq; simpl; lia.
Qed.

Lemma to_val_ge (a b c k ex : Z) :
  (0 < b)%Z -> (0 <= k)%Z -> (a <= c * (2 ^ k * b))%Z ->
  inject_Z a / inject_Z b * 2 ^ ex <= inject_Z c * 2 ^ (ex + k).
Proof.
  intros Hb Hk H. rewrite <- (scaled a b c k ex Hb Hk).
  rewrite <- inject_Z_mult.
  assert (Hq : inject_Z a <= inject_Z (c * (2 ^ k * b)))
    by (rewrite <- Zle_Qle; exact H).
  assert (Hf : 0 < 2 ^ ex / inject_Z b).
  { apply Qlt_shift_div_l; [unfold Qlt; simpl; lia|].
    rewrite Qmult_0_l. apply pow2_pos. }
  setoid_replace (inject_Z a / inject_Z b * 2 ^ ex)
    with (inject_Z a * (2 ^ ex / inject_Z b)) using relation Qeq.
  - apply Qmult_le_compat_r; [exact Hq|apply Qlt_le_weak; exact Hf].
  - field. unfold Qeq; simpl; lia.
Qed.

Lemma of_val_eq (a b c k ex : Z) :
  (0 < b)%Z -> (0 <= k)%Z ->
  inject_Z a / inject_Z b * 2 ^ ex == inject_Z c * 2 ^ (ex + k) ->
  (a = c * (2 ^ k * b))%Z.
Proof.
  intros Hb Hk H. rewrite <- (scaled a b c k ex Hb Hk) in H.
  rewrite <- inject_Z_mult in H.
  assert (Hf : 0 < 2 ^ ex / inject_Z b).
  { apply Qlt_shift_div_l; [unfold Qlt; simpl; lia|].
    rewrite Qmult_0_l. apply pow2_pos. }
  setoid_replace (inject_Z a / inject_Z b * 2 ^ ex)
    with (inject_Z a * (2 ^ ex / inject_Z b)) using relation Qeq in H
    by (field; unfold Qeq; simpl; lia).
  apply Qmult_inj_r in H; [|intros E; rewrite E in Hf; discriminate].
  apply (proj1 (inject_Z_injective _ _)) in H. exact H.
Qed.

Lemma inject_Z_pred_double (m : Z) :
  inject_Z (2 * m - 1) == 2 * inject_Z m - 1.
Proof.
  unfold Z.sub. rewrite inject_Z_plus, inject_Z_mult, inject_Z_opp.
  reflexivity.
Qed.

Lemma inject_Z_succ_double (m : Z) :
  inject_Z (2 * m + 1) == 2 * inject_Z m + 1.
Proof. rewrite inject_Z_plus, inject_Z_mult. reflexivity. Qed.

Lemma inject_Z_double (m : Z) : inject_Z (2 * m) == 2 * inject_Z m.
Proof. rewrite inject_Z_mult. reflexivity. Qed.

Lemma fexp_normal (e : Z) : (-1021 <= e)%Z -> fexp 53 1024 e = (e - 53)%Z.
Proof. unfold fexp, emin. lia. Qed.

Lemma digits_at_least (mx : Z) : (2 ^ 52 <= mx)%Z -> (53 <= Zdigits2 mx)%Z.
Proof.
  intros H. assert (Hm : (0 < mx)%Z) by lia.
  destruct (Zdigits2_bounds mx Hm) as [_ Hhi].
  destruct (Z_lt_le_dec (Zdigits2 mx) 53) as [Hlt|]; [|assumption].
  assert (Hd : (0 <= Zdigits2 mx)%Z) by (destruct mx; simpl; lia).
  assert ((2 ^ Zdigits2 mx <= 2 ^ 52)%Z) by (apply Z.pow_le_mono_r; lia).
  lia.
Qed.

Lemma shr_fexp_first (mx ex : Z) (lx : location) (a b : Z) :
  (0 < b)%Z -> (2 ^ 52 <= mx)%Z -> inbetween a b mx lx ->
  (-1021 <= Zdigits2 mx + ex)%Z ->
  exists mrs,
    shr_fexp 53 1024 mx ex lx = (mrs, (ex + (Zdigits2 mx - 53))%Z) /\
    inbetween a (2 ^ (Zdigits2 mx - 53) * b) (shr_m mrs) (loc_of_shr_record mrs) /\
    (2 ^ 52 <= shr_m mrs < 2 ^ 53)%Z.
Proof.
  intros Hb Hmx Hib He.
  pose proof (digits_at_least mx Hmx) as HD.
  destruct (Zdigits2_bounds mx ltac:(lia)) as [Hlo Hhi].
  destruct (shr_record_of_loc_inv mx lx) as [Em El].
  unfold shr_fexp. rewrite fexp_normal by exact He.
  replace (Zdigits2 mx + ex - 53 - ex)%Z with (Zdigits2 mx - 53)%Z by lia.
  remember (Zdigits2 mx - 53)%Z as k eqn:Ek.
  destruct k as [|p|p]; [| |lia].
  - exists (shr_record_of_loc mx lx). cbn [shr]. rewrite Z.add_0_r.
    split; [reflexivity|]. rewrite Em, El.
    change (2 ^ 0)%Z with 1%Z. rewrite Z.mul_1_l. split; [exact Hib|].
    replace (Zdigits2 mx) with 53%Z in Hhi by lia. lia.
  - exists (SpecFloat.iter_pos shr_1 p (shr_record_of_loc mx lx)).
    cbn [shr]. split; [reflexivity|].
    destruct (iter_pos_shr_1_inbetween p a b (shr_record_of_loc mx lx) Hb)
      as [H1 H2].
    + rewrite Em. lia.
    + rewrite Em, El. exact Hib.
    + split; [exact H1|]. rewrite H2, Em.
      assert (Hp : (0 < 2 ^ Zpos p)%Z) by (apply Z.pow_pos_nonneg; lia).
      replace (Zdigits2 mx - 1)%Z with (52 + Zpos p)%Z in Hlo by lia.
      replace (Zdigits2 mx) with (53 + Zpos p)%Z in Hhi by lia.
      rewrite Z.pow_add_r in Hlo, Hhi by lia.
      split.
      * apply Z.div_le_lower_bound; [exact Hp|]. lia.
      * apply Z.div_lt_upper_bound; [exact Hp|]. lia.
Qed.

Lemma shr_fexp_second (m1 e : Z) :
  (2 ^ 52 <= m1 <= 2 ^ 53)%Z -> (-1074 <= e)%Z ->
  exists mrs e',
    shr_fexp 53 1024 m1 e loc_Exact = (mrs, e') /\
    ((m1 < 2 ^ 53 /\ shr_m mrs = m1 /\ e' = e)%Z \/
     (m1 = 2 ^ 53 /\ shr_m mrs = 2 ^ 52 /\ e' = e + 1)%Z).
Proof.
  intros Hm He. destruct (Z_lt_le_dec m1 (2 ^ 53)) as [Hlt|Hge].
  - exists (shr_record_of_loc m1 loc_Exact), e.
    split; [|left; repeat split; [exact Hlt]].
    unfold shr_fexp. rewrite (Zdigits2_unique m1 53) by lia.
    rewrite fexp_normal by lia.
    replace (53 + e - 53 - e)%Z with 0%Z by lia. reflexivity.
  - assert (E : m1 = (2 ^ 53)%Z) by lia. subst m1.
    exists (shr_1 (shr_record_of_loc (2 ^ 53) loc_Exact)), (e + 1)%Z.
    split; [|right; repeat split; reflexivity].
    unfold shr_fexp. rewrite (Zdigits2_unique (2 ^ 53) 54) by lia.
    rewrite fexp_normal by lia.
    replace (54 + e - 53 - e)%Z with 1%Z by lia. reflexivity.
Qed.

Lemma binary_round_aux_spec (mx ex : Z) (lx : location) (a b : Z) :
  (0 < b)%Z -> (2 ^ 52 <= mx)%Z -> inbetween a b mx lx ->
  (-1021 <= Zdigits2 mx + ex <= 1023)%Z ->
  exists m e,
    binary_round_aux 53 1024 false mx ex lx = S754_finite false m e /\
    rounds_to (inject_Z a / inject_Z b * 2 ^ ex) m e /\
    (Zdigits2 mx + ex - 53 <= e <= Zdigits2 mx + ex - 52)%Z.
Proof.
  intros Hb Hmx Hib He.
  pose proof (digits_at_least mx Hmx) as HD.
  destruct (shr_fexp_first mx ex lx a b Hb Hmx Hib ltac:(lia))
    as (mrs & E1 & Hib' & Hm').
  set (k := (Zdigits2 mx - 53)%Z) in *.
  assert (Hk : (0 <= k)%Z) by (unfold k; lia).
  assert (HB : (0 < 2 ^ k * b)%Z)
    by (apply Z.mul_pos_pos; [apply Z.pow_pos_nonneg; lia|exact Hb]).
  destruct (round_nearest_even_inbetween a (2 ^ k * b) (shr_m mrs)
              (loc_of_shr_record mrs) HB Hib')
    as ((Hlo & Hhi) & Hm1 & Htie & (Hfl & Hfu)).
  set (m1 := round_nearest_even (shr_m mrs) (loc_of_shr_record mrs)) in *.
  destruct (shr_fexp_second m1 (ex + k)) as (mrs2 & e2 & E2 & Hcase);
    [lia|unfold k; lia|].
  unfold binary_round_aux. rewrite E1. fold m1. rewrite E2.
  clearbody m1.
  set (x := inject_Z a / inject_Z b * 2 ^ ex).
  assert (Xlo : (inject_Z m1 - (1 # 2)) * 2 ^ (ex + k) <= x).
  { assert (H := to_val_le (2 * a) b (2 * m1 - 1) k ex Hb Hk Hlo).
    rewrite inject_Z_pred_double, inject_Z_double in H. unfold x.
    set (u := 2 ^ (ex + k)) in *. set (v := 2 ^ ex) in *.
    set (w := inject_Z a / inject_Z b * v).
    setoid_replace (2 * inject_Z a / inject_Z b * v) with (2 * w) using relation Qeq in H
      by (unfold w; field; unfold Qeq; simpl; lia).
    nra. }
  assert (Xhi : x <= (inject_Z m1 + (1 # 2)) * 2 ^ (ex + k)).
  { assert (H := to_val_ge (2 * a) b (2 * m1 + 1) k ex Hb Hk Hhi).
    rewrite inject_Z_succ_double, inject_Z_double in H. unfold x.
    set (u := 2 ^ (ex + k)) in *. set (v := 2 ^ ex) in *.
    set (w := inject_Z a / inject_Z b * v).
    setoid_replace (2 * inject_Z a / inject_Z b * v) with (2 * w) using relation Qeq in H
      by (unfold w; field; unfold Qeq; simpl; lia).
    nra. }
  assert (Xfl : inject_Z (shr_m mrs) * 2 ^ (ex + k) <= x)
    by (apply to_val_le; assumption).
  assert (Xfu : x <= inject_Z (shr_m mrs + 1) * 2 ^ (ex + k))
    by (apply to_val_ge; try assumption; lia).
  pose proof (pow2_pos (ex + k)) as Hu.
  destruct Hcase as [(Hlt & Em & ->)|(Eq1 & Em & ->)].
  - destruct (shr_m mrs2) as [|m|m] eqn:Emrs; [lia| |lia].
    replace (ex + k <=? 1024 - 53)%Z with true
      by (symmetry; apply Z.leb_le; unfold k; lia).
    exists m, (ex + k)%Z. split; [reflexivity|]. subst m1.
    split; [|unfold k; lia].
    split.
    + lia.
    + exact Xlo.
    + exact Xhi.
    + intros E. assert (Esm : shr_m mrs = Zpos m) by lia.
      rewrite Esm in Xfl. set (u := 2 ^ (ex + k)) in *. nra.
    + intros [T|T].
      * apply Htie. left.
        apply (of_val_eq (2 * a) b (2 * Zpos m - 1) k ex Hb Hk).
        rewrite inject_Z_pred_double, inject_Z_double.
        fold x in T |- *.
        setoid_replace (2 * inject_Z a / inject_Z b * 2 ^ ex) with (2 * x) using relation Qeq
          by (unfold x; field; unfold Qeq; simpl; lia).
        rewrite T. ring.
      * apply Htie. right.
        apply (of_val_eq (2 * a) b (2 * Zpos m + 1) k ex Hb Hk).
        rewrite inject_Z_succ_double, inject_Z_double.
        setoid_replace (2 * inject_Z a / inject_Z b * 2 ^ ex) with (2 * x) using relation Qeq
          by (unfold x; field; unfold Qeq; simpl; lia).
        rewrite T. ring.
  - rewrite Em. change (2 ^ 52)%Z with (Zpos (2 ^ 52)).
    replace (ex + k + 1 <=? 1024 - 53)%Z with true
      by (symmetry; apply Z.leb_le; unfold k; lia).
    exists (2 ^ 52)%positive, (ex + k + 1)%Z. split; [reflexivity|].
    split; [|unfold k; lia].
    assert (Esm : (shr_m mrs + 1 = 2 ^ 53)%Z) by lia.
    rewrite Esm in Xfu. rewrite Eq1 in Xlo.
    pose proof (pow2_succ (ex + k)) as Hs.
    set (u := 2 ^ (ex + k)) in *. set (u' := 2 ^ (ex + k + 1)) in *.
    change (inject_Z (2 ^ 53)) with (9007199254740992 # 1) in *.
    split; [lia| | |intros _|intros _; reflexivity];
      change (inject_Z (Zpos (2 ^ 52))) with (4503599627370496 # 1);
      fold u'; clearbody x u u'; lra.
Qed.


(** ** Properties of rounded values *)

Lemma mantissa_Q (m : positive) :
  (2 ^ 52 <= Zpos m < 2 ^ 53)%Z ->
  4503599627370496 <= inject_Z (Zpos m) /\
  inject_Z (Zpos m) <= 9007199254740991.
Proof.
  intros [H1 H2]. split.
  - change 4503599627370496 with (inject_Z (2 ^ 52)).
    rewrite <- Zle_Qle. exact H1.
  - change 9007199254740991 with (inject_Z (2 ^ 53 - 1)).
    rewrite <- Zle_Qle. lia.
Qed.

(** The relative error of a rounding is at most [2^-53]. *)
Lemma rounds_approx (x : Q) (m : positive) (e : Z) :
  rounds_to x m e ->
  (1 - (1 # 9007199254740992)) * b64_val m e <= x /\
  x <= (1 + (1 # 9007199254740992)) * b64_val m e /\
  0 < b64_val m e.
Proof.
  intros [Hn Hlo Hhi _ _]. unfold b64_val.
  destruct (mantissa_Q m Hn) as [H1 H2].
  pose proof (pow2_pos e) as Hu.
  set (u := 2 ^ e) in *. set (M := inject_Z (Zpos m)) in *.
  clearbody u M.
  assert (Hp : 4503599627370496 * u <= M * u)
    by (apply Qmult_le_compat_r; [exact H1|apply Qlt_le_weak; exact Hu]).
  set (F := M * u) in *.
  assert (E1 : (M - (1 # 2)) * u == F - (1 # 2) * u) by (unfold F; ring).
  assert (E2 : (M + (1 # 2)) * u == F + (1 # 2) * u) by (unfold F; ring).
  rewrite E1 in Hlo. rewrite E2 in Hhi. clearbody F.
  repeat split; lra.
Qed.

(** Rounding is monotone. *)
Lemma rounds_mono (x x' : Q) (m m' : positive) (e e' : Z) :
  rounds_to x m e -> rounds_to x' m' e' -> x <= x' -> b64_val m e <= b64_val m' e'.
Proof.
  intros [Hn Hlo Hhi Hlo' Htie] [Hn' Hlo2 Hhi2 Hlo2' Htie2] Hx.
  destruct (Qlt_le_dec (b64_val m' e') (b64_val m e)) as [Hc|Hc]; [exfalso|exact Hc].
  unfold b64_val in Hc.
  destruct (mantissa_Q m Hn) as [H1 H2].
  destruct (mantissa_Q m' Hn') as [H1' H2'].
  pose proof (pow2_pos e) as Hu. pose proof (pow2_pos e') as Hu'.
  destruct (Z.lt_trichotomy e e') as [Hlt|[Heq|Hgt]].
  - assert (Hs : 2 * 2 ^ e <= 2 ^ e').
    { rewrite <- pow2_succ. apply pow2_le. lia. }
    set (u := 2 ^ e) in *. set (u' := 2 ^ e') in *.
    set (M := inject_Z (Zpos m)) in *. set (M' := inject_Z (Zpos m')) in *.
    clearbody u u' M M'.
    assert (M * u <= 9007199254740991 * u)
      by (apply Qmult_le_compat_r; [exact H2|apply Qlt_le_weak; exact Hu]).
    assert (4503599627370496 * u' <= M' * u')
      by (apply Qmult_le_compat_r; [exact H1'|apply Qlt_le_weak; exact Hu']).
    set (F := M * u) in *. set (F' := M' * u') in *. clearbody F F'. lra.
  - subst e'.
    assert (Hmm : (Zpos m' < Zpos m)%Z).
    { rewrite Zlt_Qlt. apply (Qmult_lt_r _ _ (2 ^ e) Hu). exact Hc. }
    assert (Hstep : inject_Z (Zpos m') + 1 <= inject_Z (Zpos m)).
    { change 1 with (inject_Z 1). rewrite <- inject_Z_plus, <- Zle_Qle. lia. }
    set (u := 2 ^ e) in *.
    set (M := inject_Z (Zpos m)) in *. set (M' := inject_Z (Zpos m')) in *.
    assert (Hp : (M' + 1) * u <= M * u)
      by (apply Qmult_le_compat_r; [exact Hstep|apply Qlt_le_weak; exact Hu]).
    assert (E1 : (M - (1 # 2)) * u == M * u - (1 # 2) * u) by ring.
    assert (E2 : (M' + (1 # 2)) * u == M' * u + (1 # 2) * u) by ring.
    assert (E3 : (M' + 1) * u == M' * u + u) by ring.
    assert (Ex : x == (M - (1 # 2)) * u).
    { rewrite E1. rewrite E1 in Hlo. rewrite E2 in Hhi2. rewrite E3 in Hp.
      set (F := M * u) in *. set (F' := M' * u) in *.
      clearbody F F' u. lra. }
    assert (Ex' : x' == (M' + (1 # 2)) * u).
    { rewrite E2. rewrite E1 in Hlo. rewrite E2 in Hhi2. rewrite E3 in Hp.
      set (F := M * u) in *. set (F' := M' * u) in *.
      clearbody F F' u. lra. }
    assert (Em : (Zpos m = Zpos m' + 1)%Z).
    { assert (Hle : M * u <= (M' + 1) * u).
      { rewrite E3. rewrite E1 in Hlo. rewrite E2 in Hhi2.
        set (F := M * u) in *. set (F' := M' * u) in *.
        clearbody F F' u. lra. }
      apply (proj1 (Qmult_le_r _ _ u Hu)) in Hle. unfold M, M' in Hle.
      change 1 with (inject_Z 1) in Hle.
      rewrite <- inject_Z_plus, <- Zle_Qle in Hle. lia. }
    assert (Ev : Z.even (Zpos m) = true) by (apply Htie; left; exact Ex).
    assert (Ev' : Z.even (Zpos m') = true) by (apply Htie2; right; exact Ex').
    rewrite Em, Z.even_add, Ev' in Ev. discriminate.
  - assert (Hs : 2 * 2 ^ e' <= 2 ^ e).
    { rewrite <- pow2_succ. apply pow2_le. lia. }
    assert (Hup : x' <= (9007199254740992 - (1 # 2)) * 2 ^ e').
    { set (u' := 2 ^ e') in *. set (M' := inject_Z (Zpos m')) in *.
      assert (M' * u' <= 9007199254740991 * u')
        by (apply Qmult_le_compat_r; [exact H2'|apply Qlt_le_weak; exact Hu']).
      assert (E2 : (M' + (1 # 2)) * u' == M' * u' + (1 # 2) * u') by ring.
      rewrite E2 in Hhi2. set (F' := M' * u') in *. clearbody F' u'. lra. }
    destruct (Z.eq_dec (Zpos m) (2 ^ 52)%Z) as [E52|N52].
    + specialize (Hlo' E52). rewrite E52 in Hlo'.
      change (inject_Z (2 ^ 52)) with 4503599627370496 in Hlo'.
      assert (Ex' : x' == (inject_Z (Zpos m') + (1 # 2)) * 2 ^ e' /\
                    inject_Z (Zpos m') * 2 ^ e' == 9007199254740991 * 2 ^ e').
      { set (u := 2 ^ e) in *. set (u' := 2 ^ e') in *.
        set (M' := inject_Z (Zpos m')) in *.
        assert (M' * u' <= 9007199254740991 * u')
          by (apply Qmult_le_compat_r;
              [exact H2'|apply Qlt_le_weak; exact Hu']).
        assert (E2 : (M' + (1 # 2)) * u' == M' * u' + (1 # 2) * u') by ring.
        rewrite E2. rewrite E2 in Hhi2.
        set (F' := M' * u') in *. clearbody F' u u'. split; lra. }
      destruct Ex' as [Ex' EM].
      apply Qmult_inj_r in EM; [|intros E0; rewrite E0 in Hu'; discriminate].
      change 9007199254740991 with (inject_Z (2 ^ 53 - 1)) in EM.
      apply (proj1 (inject_Z_injective _ _)) in EM.
      assert (Ev' : Z.even (Zpos m') = true) by (apply Htie2; right; exact Ex').
      rewrite EM in Ev'. discriminate.
    + assert (Hstep : 4503599627370497 <= inject_Z (Zpos m)).
      { change 4503599627370497 with (inject_Z (2 ^ 52 + 1)).
        rewrite <- Zle_Qle. lia. }
      set (u := 2 ^ e) in *. set (u' := 2 ^ e') in *.
      set (M := inject_Z (Zpos m)) in *.
      assert (4503599627370497 * u <= M * u)
        by (apply Qmult_le_compat_r; [exact Hstep|apply Qlt_le_weak; exact Hu]).
      assert (E1 : (M - (1 # 2)) * u == M * u - (1 # 2) * u) by ring.
      rewrite E1 in Hlo. set (F := M * u) in *. clearbody F u u'. lra.
Qed.

Lemma rounds_self (m : positive) (e : Z) :
  (2 ^ 52 <= Zpos m < 2 ^ 53)%Z -> rounds_to (b64_val m e) m e.
Proof.
  intros Hn. pose proof (pow2_pos e) as Hu. unfold b64_val.
  split; [exact Hn| | |intros _|];
    set (u := 2 ^ e) in *; set (M := inject_Z (Zpos m)) in *;
    assert (E1 : (M - (1 # 2)) * u == M * u - (1 # 2) * u) by ring;
    assert (E2 : (M + (1 # 2)) * u == M * u + (1 # 2) * u) by ring;
    assert (E3 : (M - (1 # 4)) * u == M * u - (1 # 4) * u) by ring;
    rewrite ?E1, ?E2, ?E3; set (F := M * u); clearbody F u;
    lra.
Qed.

(** A representable number rounds to itself. *)
Lemma rounds_exact (x : Q) (m m0 : positive) (e e0 : Z) :
  rounds_to x m e -> (2 ^ 52 <= Zpos m0 < 2 ^ 53)%Z -> x == b64_val m0 e0 ->
  b64_val m e == x.
Proof.
  intros H Hn E. pose proof (rounds_self m0 e0 Hn) as H0.
  rewrite E. apply Qle_antisym.
  - apply (rounds_mono x (b64_val m0 e0)); [exact H|exact H0|].
    rewrite E. apply Qle_refl.
  - apply (rounds_mono (b64_val m0 e0) x); [exact H0|exact H|].
    rewrite E. apply Qle_refl.
Qed.


(** ** The three operations of [run] *)

Lemma iter_xO (p q : positive) :
  Zpos (Pos.iter xO p q) = (Zpos p * 2 ^ Zpos q)%Z.
Proof.
  induction q as [|q IH] using Pos.peano_ind.
  - cbn [Pos.iter]. rewrite (Pos2Z.inj_xO p). change (2 ^ 1)%Z with 2%Z. ring.
  - rewrite Pos.iter_succ, (Pos2Z.inj_xO (Pos.iter xO p q)), IH.
    rewrite Pos2Z.inj_succ, Z.pow_succ_r by lia. ring.
Qed.

Lemma digits_le (n k : Z) :
  (0 < n < 2 ^ k)%Z -> (0 <= k)%Z -> (Zdigits2 n <= k)%Z.
Proof.
  intros [Hn Hk] H0. destruct (Zdigits2_bounds n Hn) as [Hlo _].
  destruct (Z_lt_le_dec k (Zdigits2 n)) as [Hlt|]; [|assumption].
  assert ((2 ^ k <= 2 ^ (Zdigits2 n - 1))%Z) by (apply Z.pow_le_mono_r; lia).
  lia.
Qed.

(** [static_cast<double> (n)] is the rounding of [n]. *)
Lemma b64_of_Z_spec (n : Z) :
  (0 < n < 2 ^ 1000)%Z ->
  exists m e,
    b64_of_Z n = S754_finite false m e /\
    rounds_to (inject_Z n) m e /\
    (Zdigits2 n - 53 <= e <= Zdigits2 n - 52)%Z.
Proof.
  intros Hn. pose proof (digits_le n 1000 Hn ltac:(lia)) as Hd.
  destruct n as [|p|p]; try lia. cbn [Zdigits2] in *.
  destruct (digits2_pos_bounds p) as [Hlo Hhi].
  unfold b64_of_Z, binary_normalize, binary_round.
  rewrite fexp_normal by lia. unfold shl_align.
  remember (Zpos (digits2_pos p)) as d eqn:Ed.
  remember (d + 0 - 53 - 0)%Z as s eqn:Es.
  destruct s as [|q|q].
  - assert (E : d = 53%Z) by lia. rewrite E in *.
    destruct (binary_round_aux_spec (Zpos p) 0 loc_Exact (Zpos p) 1)
      as (m & e & H1 & H2 & H3); try lia.
    { cbn [inbetween]. ring. }
    { rewrite (Zdigits2_unique (Zpos p) 53) by lia. lia. }
    exists m, e. split; [exact H1|]. split.
    + eapply rounds_ext; [|exact H2].
      change (2 ^ 0) with 1. field.
    + rewrite (Zdigits2_unique (Zpos p) 53) in H3 by lia. lia.
  - assert (Hdig : Zdigits2 (Zpos p) = d) by (rewrite Ed; reflexivity).
    destruct (binary_round_aux_spec (Zpos p) 0 loc_Exact (Zpos p) 1)
      as (m & e & H1 & H2 & H3); try lia.
    { assert ((2 ^ 52 <= 2 ^ (d - 1))%Z) by (apply Z.pow_le_mono_r; lia). lia. }
    { cbn [inbetween]. ring. }
    exists m, e. split; [exact H1|]. split.
    + eapply rounds_ext; [|exact H2].
      change (2 ^ 0) with 1. field.
    + lia.
  - assert (Eq : (d = 53 - Zpos q)%Z) by lia.
    assert (Hmz : (2 ^ 52 <= Zpos (Pos.iter xO p q) < 2 ^ 53)%Z).
    { rewrite iter_xO.
      assert (E52 : (2 ^ 52 = 2 ^ (d - 1) * 2 ^ Zpos q)%Z)
        by (rewrite <- Z.pow_add_r by lia; f_equal; lia).
      assert (E53 : (2 ^ 53 = 2 ^ d * 2 ^ Zpos q)%Z)
        by (rewrite <- Z.pow_add_r by lia; f_equal; lia).
      rewrite E52, E53.
      assert ((0 < 2 ^ Zpos q)%Z) by (apply Z.pow_pos_nonneg; lia).
      split; nia. }
    assert (Hdig : Zdigits2 (Zpos (Pos.iter xO p q)) = 53%Z)
      by (apply Zdigits2_unique; [exact Hmz|lia]).
    destruct (binary_round_aux_spec (Zpos (Pos.iter xO p q)) (d + 0 - 53)
                loc_Exact (Zpos (Pos.iter xO p q)) 1)
      as (m & e & H1 & H2 & H3); try lia.
    { cbn [inbetween]. ring. }
    exists m, e. split; [exact H1|]. split.
    + eapply rounds_ext; [|exact H2].
      rewrite iter_xO, inject_Z_mult, pow2_Z by lia.
      replace (d + 0 - 53)%Z with (- Zpos q)%Z by lia.
      pose proof (pow2_add (Zpos q) (- Zpos q)) as Hq.
      replace (Zpos q + - Zpos q)%Z with 0%Z in Hq by lia.
      change (2 ^ 0) with 1 in Hq.
      setoid_replace (inject_Z (Zpos p) * 2 ^ Zpos q / inject_Z 1
                      * 2 ^ (- Zpos q))
        with (inject_Z (Zpos p) * (2 ^ Zpos q * 2 ^ (- Zpos q)))
        using relation Qeq by field.
      rewrite <- Hq. ring.
    + lia.
Qed.

Lemma Z_div_eucl_spec (a b : Z) :
  (0 < b)%Z ->
  exists q r, Z.div_eucl a b = (q, r) /\ (a = b * q + r)%Z /\ (0 <= r < b)%Z.
Proof.
  intros Hb. pose proof (Z_div_mod a b ltac:(lia)) as H.
  destruct (Z.div_eucl a b) as [q r]. exists q, r. tauto.
Qed.

Lemma new_location_inbetween (a b q r : Z) :
  Z.even b = true -> (0 < b)%Z -> (a = b * q + r)%Z -> (0 <= r < b)%Z ->
  inbetween a b q (new_location b r).
Proof.
  intros Ev Hb Ea Hr. unfold new_location. rewrite Ev.
  unfold new_location_even.
  destruct (Z.eqb_spec r 0) as [E0|N0].
  - cbn [inbetween]. lia.
  - destruct (Z.compare_spec (2 * r) b) as [E|L|G]; cbn [inbetween]; lia.
Qed.

Lemma b64_sample_rate :
  b64_of_Z sample_rate = S754_finite false 8796093022208000 (-39).
Proof. vm_compute. reflexivity. Qed.

Lemma b64_max_tokens_per_second :
  b64_of_Z max_tokens_per_second = S754_finite false 6755399441055744 (-50).
Proof. vm_compute. reflexivity. Qed.

(** [x / sample_rate] is the rounding of the sixteen-thousandth of [x]. *)
Lemma SFdiv_sample_rate_spec (m : positive) (e : Z) :
  (2 ^ 52 <= Zpos m < 2 ^ 53)%Z -> (-900 <= e <= 900)%Z ->
  exists m' e',
    SFdiv 53 1024 (S754_finite false m e) (b64_of_Z sample_rate)
    = S754_finite false m' e' /\
    rounds_to (b64_val m e * (1 # 16000)) m' e' /\
    (e - 14 <= e' <= e - 12)%Z.
Proof.
  intros Hm He. rewrite b64_sample_rate. cbn [SFdiv xorb].
  unfold SFdiv_core_binary.
  rewrite (Zdigits2_unique (Zpos m) 53) by lia.
  change (Zdigits2 (Zpos 8796093022208000)) with 53%Z.
  replace (Z.min (fexp 53 1024 (53 + e - (53 + -39))) (e - -39))
    with (e - 14)%Z by (unfold fexp, emin; lia).
  replace (e - -39 - (e - 14))%Z with 53%Z by lia.
  cbv beta iota zeta.
  rewrite Z.shiftl_mul_pow2 by lia.
  destruct (Z_div_eucl_spec (Zpos m * 2 ^ 53) (Zpos 8796093022208000))
    as (q & r & -> & Ea & Hr); [lia|].
  assert (Hq : (2 ^ 52 <= q < 2 ^ 54)%Z) by lia.
  pose proof (digits_at_least q ltac:(lia)) as HD.
  pose proof (digits_le q 54 ltac:(lia) ltac:(lia)) as HD'.
  destruct (binary_round_aux_spec q (e - 14)
              (new_location (Zpos 8796093022208000) r)
              (Zpos m * 2 ^ 53) (Zpos 8796093022208000))
    as (m' & e' & H1 & H2 & H3); try lia.
  { apply new_location_inbetween; [reflexivity|lia|exact Ea|exact Hr]. }
  exists m', e'. split; [exact H1|]. split; [|lia].
  eapply rounds_ext; [|exact H2].
  unfold b64_val. rewrite inject_Z_mult.
  replace (e - 14)%Z with (e + -14)%Z by lia. rewrite pow2_add.
  change (inject_Z (2 ^ 53)) with 9007199254740992.
  change (inject_Z (Zpos 8796093022208000)) with 8796093022208000.
  change (2 ^ (-14)) with (1 # 16384).
  field.
Qed.

(** [x * max_tokens_per_second] is the rounding of six times [x]. *)
Lemma SFmul_max_tokens_spec (m : positive) (e : Z) :
  (2 ^ 52 <= Zpos m < 2 ^ 53)%Z -> (-900 <= e <= 900)%Z ->
  exists m' e',
    SFmul 53 1024 (S754_finite false m e) (b64_of_Z max_tokens_per_second)
    = S754_finite false m' e' /\
    rounds_to (b64_val m e * 6) m' e' /\
    (e + 2 <= e' <= e + 4)%Z.
Proof.
  intros Hm He. rewrite b64_max_tokens_per_second. cbn [SFmul xorb].
  rewrite Pos2Z.inj_mul.
  set (mx := (Zpos m * Zpos 6755399441055744)%Z).
  assert (Hmx : (2 ^ 104 <= mx < 2 ^ 106)%Z) by (unfold mx; lia).
  assert (HD : (105 <= Zdigits2 mx <= 106)%Z).
  { split.
    - destruct (Zdigits2_bounds mx ltac:(lia)) as [_ Hhi].
      destruct (Z_lt_le_dec (Zdigits2 mx) 105) as [Hlt|]; [|assumption].
      assert (0 <= Zdigits2 mx)%Z by (destruct mx; simpl; lia).
      assert ((2 ^ Zdigits2 mx <= 2 ^ 104)%Z)
        by (apply Z.pow_le_mono_r; lia).
      lia.
    - apply digits_le; lia. }
  destruct (binary_round_aux_spec mx (e + -50) loc_Exact mx 1)
    as (m' & e' & H1 & H2 & H3); try lia.
  { cbn [inbetween]. ring. }
  exists m', e'. split; [exact H1|]. split; [|lia].
  eapply rounds_ext; [|exact H2].
  unfold b64_val, mx. rewrite inject_Z_mult, pow2_add.
  change (inject_Z (Zpos 6755399441055744)) with 6755399441055744.
  change (2 ^ (-50)) with (1 # 1125899906842624).
  field.
Qed.


(** ** [std::round] and the conversion to [size_t] *)

Lemma Qfloor_unique (z : Z) (x : Q) :
  inject_Z z <= x -> x < inject_Z (z + 1) -> Qfloor x = z.
Proof.
  intros H1 H2. pose proof (Qfloor_le x) as F1. pose proof (Qlt_floor x) as F2.
  assert (Ha : (Qfloor x < z + 1)%Z)
    by (rewrite Zlt_Qlt; eapply Qle_lt_trans; eauto).
  assert (Hb : (z < Qfloor x + 1)%Z)
    by (rewrite Zlt_Qlt; eapply Qle_lt_trans; eauto).
  lia.
Qed.

Lemma b64_round_to_Z_val (m : positive) (e : Z) :
  b64_round_to_Z (S754_finite false m e) = Qfloor (b64_val m e + (1 # 2)).
Proof.
  symmetry. unfold b64_round_to_Z, b64_val.
  assert (Hnn : forall k, (0 <= k)%Z ->
            Qfloor (inject_Z (Zpos m) * 2 ^ k + (1 # 2))
            = (Zpos m * 2 ^ k)%Z).
  { intros k Hk. apply Qfloor_unique.
    - rewrite inject_Z_mult, pow2_Z by exact Hk.
      set (F := inject_Z (Zpos m) * 2 ^ k). clearbody F. lra.
    - rewrite inject_Z_plus, inject_Z_mult, pow2_Z by exact Hk.
      set (F := inject_Z (Zpos m) * 2 ^ k). clearbody F.
      change (inject_Z 1) with 1. lra. }
  destruct e as [|p|p].
  - apply Hnn. lia.
  - apply Hnn. lia.
  - assert (Hp : (0 < 2 ^ Zpos p)%Z) by (apply Z.pow_pos_nonneg; lia).
    assert (Eh : (2 ^ Zpos p = 2 * 2 ^ (Zpos p - 1))%Z).
    { rewrite <- Z.pow_succ_r by lia. f_equal. lia. }
    set (h := (2 ^ (Zpos p - 1))%Z) in *.
    set (z := ((Zpos m + h) / 2 ^ Zpos p)%Z).
    assert (Hz1 : (2 ^ Zpos p * z <= Zpos m + h)%Z)
      by (apply Z.mul_div_le; exact Hp).
    assert (Hz2 : (Zpos m + h < 2 ^ Zpos p * (z + 1))%Z).
    { replace (z + 1)%Z with (Z.succ z) by lia.
      apply Z.mul_succ_div_gt. exact Hp. }
    pose proof (pow2_add (Zpos p) (Zneg p)) as Hq.
    replace (Zpos p + Zneg p)%Z with 0%Z in Hq by lia.
    change (2 ^ 0) with 1 in Hq.
    rewrite <- pow2_Z in Hq by lia.
    pose proof (pow2_pos (Zneg p)) as Hw.
    rewrite Eh in Hz1, Hz2, Hq.
    rewrite Zle_Qle in Hz1. rewrite Zlt_Qlt in Hz2.
    rewrite inject_Z_plus in Hz1, Hz2.
    rewrite !inject_Z_mult in Hz1, Hz2, Hq.
    change (inject_Z 2) with 2 in *.
    rewrite (inject_Z_double h) in Hz1, Hz2.
    apply Qfloor_unique.
    + set (w := 2 ^ Zneg p) in *. set (M := inject_Z (Zpos m)) in *.
      set (H := inject_Z h) in *. set (Z0 := inject_Z z) in *.
      clearbody w M H Z0.
      assert (E : M * w + (1 # 2) == (M + H) * w)
        by (assert (H * w == 1 # 2) by lra; lra).
      rewrite E.
      assert (Z0 == (2 * H * Z0) * w).
      { setoid_replace ((2 * H * Z0) * w) with (Z0 * (2 * H * w))
          using relation Qeq by ring.
        rewrite <- Hq. ring. }
      assert ((2 * H * Z0) * w <= (M + H) * w)
        by (apply Qmult_le_compat_r; [exact Hz1|lra]).
      lra.
    + set (w := 2 ^ Zneg p) in *. set (M := inject_Z (Zpos m)) in *.
      set (H := inject_Z h) in *.
      set (Z1 := inject_Z (z + 1)) in *.
      clearbody w M H Z1.
      assert (E : M * w + (1 # 2) == (M + H) * w)
        by (assert (H * w == 1 # 2) by lra; lra).
      rewrite E.
      assert (Z1 == (2 * H * Z1) * w).
      { setoid_replace ((2 * H * Z1) * w) with (Z1 * (2 * H * w))
          using relation Qeq by ring.
        rewrite <- Hq. ring. }
      assert ((M + H) * w < (2 * H * Z1) * w)
        by (apply Qmult_lt_compat_r; [exact Hw|exact Hz2]).
      lra.
Qed.

(** ** Representable values *)

Lemma normalize (z s : Z) :
  (0 < z < 2 ^ 53)%Z ->
  exists M E, (2 ^ 52 <= Zpos M < 2 ^ 53)%Z /\ b64_val M E == inject_Z z * 2 ^ s.
Proof.
  intros Hz. destruct (Zdigits2_bounds z ltac:(lia)) as [Hlo Hhi].
  pose proof (digits_le z 53 Hz ltac:(lia)) as Hd.
  assert (Hd0 : (0 < Zdigits2 z)%Z) by (destruct z; simpl; lia).
  set (q := (53 - Zdigits2 z)%Z).
  assert (Hq : (0 <= q)%Z) by (unfold q; lia).
  assert (Hp : (0 < 2 ^ q)%Z) by (apply Z.pow_pos_nonneg; lia).
  assert (E52 : (2 ^ 52 = 2 ^ (Zdigits2 z - 1) * 2 ^ q)%Z)
    by (rewrite <- Z.pow_add_r by lia; f_equal; unfold q; lia).
  assert (E53 : (2 ^ 53 = 2 ^ Zdigits2 z * 2 ^ q)%Z)
    by (rewrite <- Z.pow_add_r by lia; f_equal; unfold q; lia).
  assert (Hm : (2 ^ 52 <= z * 2 ^ q < 2 ^ 53)%Z)
    by (rewrite E52, E53; split; nia).
  exists (Z.to_pos (z * 2 ^ q)), (s - q)%Z.
  unfold b64_val. rewrite !Z2Pos.id by lia. split; [exact Hm|].
  rewrite inject_Z_mult, pow2_Z by exact Hq.
  replace (s - q)%Z with (s + - q)%Z by lia. rewrite pow2_add.
  pose proof (pow2_add q (- q)) as H0.
  replace (q + - q)%Z with 0%Z in H0 by lia. change (2 ^ 0) with 1 in H0.
  set (a := 2 ^ q) in *. set (b := 2 ^ (- q)) in *. set (c := 2 ^ s).
  setoid_replace (inject_Z z * a * (c * b)) with (inject_Z z * c * (a * b))
    using relation Qeq by ring.
  rewrite <- H0. ring.
Qed.

(** ** The computation of [run], operation by operation *)

Lemma run_arithmetic (n : Z) :
  (0 < n < 2 ^ 64)%Z ->
  exists m0 e0 m1 e1 m2 e2,
    b64_of_Z n = S754_finite false m0 e0 /\
    rounds_to (inject_Z n) m0 e0 /\
    audio_len n = S754_finite false m1 e1 /\
    rounds_to (b64_val m0 e0 * (1 # 16000)) m1 e1 /\
    max_len_double n = S754_finite false m2 e2 /\
    rounds_to (b64_val m1 e1 * 6) m2 e2.
Proof.
  intros Hn.
  destruct (b64_of_Z_spec n) as (m0 & e0 & E0 & R0 & He0).
  { assert ((2 ^ 64 < 2 ^ 1000)%Z) by (apply Z.pow_lt_mono_r; lia). lia. }
  pose proof (digits_le n 64 Hn ltac:(lia)) as Hd.
  assert (Hd0 : (0 < Zdigits2 n)%Z) by (destruct n; simpl; lia).
  destruct (SFdiv_sample_rate_spec m0 e0 (r_norm _ _ _ R0) ltac:(lia))
    as (m1 & e1 & E1 & R1 & He1).
  destruct (SFmul_max_tokens_spec m1 e1 (r_norm _ _ _ R1) ltac:(lia))
    as (m2 & e2 & E2 & R2 & He2).
  exists m0, e0, m1, e1, m2, e2.
  unfold max_len_double, audio_len. rewrite E0, E1, E2. auto 10.
Qed.

Lemma max_len_of_zero : max_len_of 0 = 0%Z.
Proof. vm_compute. reflexivity. Qed.

(** More samples never give a smaller [max_len]. *)
Theorem max_len_of_monotone (n n' : Z) :
  (0 <= n <= n')%Z -> (n' < 2 ^ 64)%Z -> (max_len_of n <= max_len_of n')%Z.
Proof.
  intros Hn Hn'.
  destruct (Z.eq_dec n' 0%Z) as [->|N0'].
  { assert (n = 0%Z) by lia. subst n. lia. }
  destruct (run_arithmetic n' ltac:(lia))
    as (m0' & e0' & m1' & e1' & m2' & e2' & _ & R0' & _ & R1' & E' & R2').
  unfold max_len_of at 2. rewrite E', b64_round_to_Z_val.
  destruct (Z.eq_dec n 0%Z) as [->|N0].
  { rewrite max_len_of_zero. change 0%Z with (Qfloor 0).
    apply Qfloor_resp_le.
    destruct (rounds_approx _ _ _ R2') as (_ & _ & Hpos). lra. }
  destruct (run_arithmetic n ltac:(lia))
    as (m0 & e0 & m1 & e1 & m2 & e2 & _ & R0 & _ & R1 & E & R2).
  unfold max_len_of. rewrite E, b64_round_to_Z_val.
  apply Qfloor_resp_le.
  assert (H0 : b64_val m0 e0 <= b64_val m0' e0').
  { apply (rounds_mono _ _ _ _ _ _ R0 R0'). rewrite <- Zle_Qle. lia. }
  assert (H1 : b64_val m1 e1 <= b64_val m1' e1').
  { apply (rounds_mono _ _ _ _ _ _ R1 R1'). lra. }
  assert (H2 : b64_val m2 e2 <= b64_val m2' e2').
  { apply (rounds_mono _ _ _ _ _ _ R2 R2'). lra. }
  lra.
Qed.

(** [max_len] fits a [size_t]. *)
Theorem max_len_of_in_range (n : Z) :
  (0 <= n < 2 ^ 64)%Z -> (0 <= max_len_of n < 2 ^ 64)%Z.
Proof.
  intros Hn. destruct (Z.eq_dec n 0%Z) as [->|N0].
  { rewrite max_len_of_zero. lia. }
  destruct (run_arithmetic n ltac:(lia))
    as (m0 & e0 & m1 & e1 & m2 & e2 & _ & R0 & _ & R1 & E & R2).
  unfold max_len_of. rewrite E, b64_round_to_Z_val.
  destruct (rounds_approx _ _ _ R0) as (A0 & B0 & P0).
  destruct (rounds_approx _ _ _ R1) as (A1 & B1 & P1).
  destruct (rounds_approx _ _ _ R2) as (A2 & B2 & P2).
  assert (Hq : inject_Z n <= 18446744073709551615).
  { change 18446744073709551615 with (inject_Z (2 ^ 64 - 1)).
    rewrite <- Zle_Qle. lia. }
  set (F0 := b64_val m0 e0) in *. set (F1 := b64_val m1 e1) in *.
  set (F2 := b64_val m2 e2) in *. set (N := inject_Z n) in *.
  clearbody F0 F1 F2 N.
  split.
  - change 0%Z with (Qfloor 0). apply Qfloor_resp_le. lra.
  - rewrite Zlt_Qlt. eapply Qle_lt_trans; [apply Qfloor_le|].
    change (inject_Z (2 ^ 64)) with 18446744073709551616. lra.
Qed.

(** Below [2^50] samples the two roundings of the [double] arithmetic
    never move the product across a half: [max_len] is the exactly rounded
    value.  Sample counts that give a half (the multiples of 4000 by an
    odd number) are computed without any rounding error. *)
Theorem max_len_of_closed_form (n : Z) :
  (0 <= n < 2 ^ 50)%Z -> max_len_of n = ((3 * n + 4000) / 8000)%Z.
Proof.
  intros Hn. destruct (Z.eq_dec n 0%Z) as [->|N0].
  { vm_compute. reflexivity. }
  destruct (run_arithmetic n ltac:(lia))
    as (m0 & e0 & m1 & e1 & m2 & e2 & _ & R0 & _ & R1 & E & R2).
  unfold max_len_of. rewrite E, b64_round_to_Z_val.
  assert (X0 : b64_val m0 e0 == inject_Z n).
  { destruct (normalize n 0 ltac:(lia)) as (M & EE & HM & EM).
    apply (rounds_exact _ _ M _ EE R0 HM).
    rewrite EM. change (2 ^ 0) with 1. ring. }
  assert (R1' : rounds_to (inject_Z n * (1 # 16000)) m1 e1).
  { eapply rounds_ext; [|exact R1]. rewrite X0. reflexivity. }
  set (K := ((3 * n + 4000) / 8000)%Z).
  set (r := ((3 * n + 4000) mod 8000)%Z).
  assert (Hdiv : (3 * n + 4000 = 8000 * K + r)%Z)
    by (apply Z.div_mod; lia).
  assert (Hr : (0 <= r < 8000)%Z) by (apply Z.mod_pos_bound; lia).
  destruct (Z.eq_dec r 0%Z) as [Er|Nr].
  - (* a halfway case: every operation is exact *)
    assert (Hj : exists j, (n = 4000 * j)%Z).
    { exists (n / 4000)%Z. pose proof (Z.div_mod n 4000 ltac:(lia)).
      pose proof (Z.mod_pos_bound n 4000 ltac:(lia)). lia. }
    destruct Hj as [j Ej].
    assert (H3j : (3 * j = 2 * K - 1)%Z) by lia.
    destruct (normalize j (-2) ltac:(lia)) as (M1 & E1 & HM1 & EM1).
    assert (X1 : b64_val m1 e1 == inject_Z j * (1 # 4)).
    { apply (rounds_exact _ _ M1 _ E1).
      - eapply rounds_ext; [|exact R1'].
        rewrite Ej, inject_Z_mult. change (inject_Z 4000) with 4000. field.
      - exact HM1.
      - rewrite EM1. reflexivity. }
    destruct (normalize (3 * j) (-1) ltac:(lia)) as (M2 & E2 & HM2 & EM2).
    assert (X2 : b64_val m2 e2 == inject_Z (3 * j) * (1 # 2)).
    { apply (rounds_exact _ _ M2 _ E2).
      - eapply rounds_ext; [|exact R2].
        rewrite X1, inject_Z_mult. change (inject_Z 3) with 3. ring.
      - exact HM2.
      - rewrite EM2. reflexivity. }
    apply Qfloor_unique.
    + rewrite X2, H3j. unfold Z.sub.
      rewrite inject_Z_plus, inject_Z_mult.
      change (inject_Z 2) with 2. change (inject_Z (- (1))) with (-1 # 1).
      set (k := inject_Z K). clearbody k. lra.
    + rewrite X2, H3j. unfold Z.sub.
      rewrite !inject_Z_plus, inject_Z_mult.
      change (inject_Z 2) with 2. change (inject_Z (- (1))) with (-1 # 1).
      change (inject_Z 1) with 1.
      set (k := inject_Z K). clearbody k. lra.
  - destruct (rounds_approx _ _ _ R1') as (A1 & B1 & P1).
    destruct (rounds_approx _ _ _ R2) as (A2 & B2 & P2).
    assert (Hq : 3 * inject_Z n + 4000 == 8000 * inject_Z K + inject_Z r).
    { change 3 with (inject_Z 3). change 4000 with (inject_Z 4000).
      change 8000 with (inject_Z 8000).
      rewrite <- !inject_Z_mult, <- !inject_Z_plus. rewrite Hdiv.
      reflexivity. }
    assert (Hr1 : 1 <= inject_Z r)
      by (change 1 with (inject_Z 1); rewrite <- Zle_Qle; lia).
    assert (Hr2 : inject_Z r <= 7999)
      by (change 7999 with (inject_Z 7999); rewrite <- Zle_Qle; lia).
    assert (Hn1 : 1 <= inject_Z n)
      by (change 1 with (inject_Z 1); rewrite <- Zle_Qle; lia).
    assert (Hn2 : inject_Z n <= 1125899906842623).
    { change 1125899906842623 with (inject_Z (2 ^ 50 - 1)).
      rewrite <- Zle_Qle. lia. }
    apply Qfloor_unique.
    + set (F1 := b64_val m1 e1) in *. set (F2 := b64_val m2 e2) in *.
      set (N := inject_Z n) in *. set (k := inject_Z K) in *.
      set (rq := inject_Z r) in *. clearbody F1 F2 N k rq. lra.
    + rewrite inject_Z_plus. change (inject_Z 1) with 1.
      set (F1 := b64_val m1 e1) in *. set (F2 := b64_val m2 e2) in *.
      set (N := inject_Z n) in *. set (k := inject_Z K) in *.
      set (rq := inject_Z r) in *. clearbody F1 F2 N k rq. lra.
Qed.

End Binary64.

(* ===================================================================== *)
(** * The token budget *)
(* ===================================================================== *)

Lemma spec_token_budget_closed_form (n : Z) :
  spec_token_budget n = Z.max ((3 * n + 4000) / 8000) 1.
Proof.
  unfold spec_token_budget. f_equal.
  unfold Qdiv, Qinv, Qmult, Qplus, Qfloor, inject_Z. simpl.
  change (Z.pos (1 * 16000 * 1 * 2)) with (8000 * 4).
  change (Z.pos (1 * 16000 * 1)) with 16000.
  replace (n * 1 * 6 * 2 + 1 * 16000) with ((3 * n + 4000) * 4) by lia.
  apply Z.div_mul_cancel_r; lia.
Qed.

Lemma token_budget_closed_form (n : Z) :
  0 <= n < 2 ^ 50 -> token_budget n = Z.max ((3 * n + 4000) / 8000) 1.
Proof.
  intros Hn. unfold token_budget, max_token_count, min_token_count.
  rewrite Binary64.max_len_of_closed_form by exact Hn. reflexivity.
Qed.

(** X1.  The budget does not decrease when samples are added: more audio
    never allows fewer decode iterations.  The sample counts are those of
    a [size_t]. *)
Lemma token_budget_monotone (n n' : Z) :
  0 <= n <= n' -> n' < 2 ^ 64 -> token_budget n <= token_budget n'.
Proof.
  intros H H'. unfold token_budget, max_token_count.
  apply Z.max_le_compat_r, Binary64.max_len_of_monotone; assumption.
Qed.

(** Some 4.4e15 samples: the [double] arithmetic of [run] gives a budget
    one above the exactly rounded value. *)
Lemma token_budget_not_exactly_rounded :
  0 <= 4398046511105333 < 2 ^ 64 /\
  token_budget 4398046511105333 = 1649267441665 /\
  spec_token_budget 4398046511105333 = 1649267441664.
Proof.
  split; [lia|]. split; vm_compute; reflexivity.
Qed.

(** C3 (as the code has it).  The number of decode iterations allowed is
    at least 1 for every sample count, also for [n = 0].  For the sample
    counts of a [size_t] the [double] handed to [std::round] is zero or a
    positive finite number and the budget fits a [size_t]: the computation
    is defined throughout, and a function of [n] alone.  For
    [n < 2^50] the budget is round ((n / 16000) * 6) floored to at least
    1, on exact numbers: the integer [(3 n + 4000) / 8000] (halves rounded
    up) or 1, whichever is greater. *)
Theorem token_budget_floor (n : Z) :
  1 <= token_budget n /\
  (0 <= n < 2 ^ 64 ->
   finite_nonneg (max_len_double n) /\
   token_budget n = Z.max (b64_round_to_Z (max_len_double n)) 1 /\
   token_budget n < 2 ^ 64) /\
  (0 <= n < 2 ^ 50 ->
   token_budget n = spec_token_budget n /\
   token_budget n = Z.max ((3 * n + 4000) / 8000) 1).
Proof.
  split; [unfold token_budget, max_token_count, min_token_count; lia|].
  split.
  - intros Hn. split; [|split; [reflexivity|]].
    + destruct (Z.eq_dec n 0) as [->|N0]; [left; vm_compute; reflexivity|].
      destruct (Binary64.run_arithmetic n ltac:(lia))
        as (m0 & e0 & m1 & e1 & m2 & e2 & _ & _ & _ & _ & E & _).
      right. exists m2, e2. exact E.
    + pose proof (Binary64.max_len_of_in_range n Hn).
      unfold token_budget, max_token_count, min_token_count. lia.
  - intros Hn. rewrite spec_token_budget_closed_form.
    split; apply token_budget_closed_form; exact Hn.
Qed.

Lemma token_budget_floor_witness :
  token_budget 0 = 1 /\ token_budget 16000 = 6 /\ token_budget 4000 = 2 /\
  token_budget 4398046511105333 < 2 ^ 64.
Proof.
  destruct (token_budget_floor 0) as (_ & _ & H0); destruct H0 as [_ H0]; [lia|].
  destruct (token_budget_floor 16000) as (_ & _ & H1);
    destruct H1 as [_ H1]; [lia|].
  destruct (token_budget_floor 4000) as (_ & _ & H2);
    destruct H2 as [_ H2]; [lia|].
  destruct (token_budget_floor 4398046511105333) as (_ & H3 & _);
    destruct H3 as (_ & _ & H3); [lia|].
  split; [exact H0|]. split; [exact H1|]. split; [exact H2 | exact H3].
Defined.

(* ===================================================================== *)
(** * Model selection *)
(* ===================================================================== *)

Section FromString.

Import ModelType.

(** The characters that [tolower] sends to a lower-case letter are the
    letter itself and its upper-case form. *)
Lemma tolower_lower (c a : ascii) :
  tolower c = a -> is_lower a = true -> c = a \/ c = toupper a.
Proof.
  intros <-.
  destruct c as [[] [] [] [] [] [] [] []]; vm_compute;
    intros H; first [discriminate H | left; reflexivity | right; reflexivity].
Qed.

Lemma transform_tolower_casing (word : string) :
  forall str, all_lower word = true ->
  transform_tolower str = word -> casing_of word str.
Proof.
  induction word as [|a word IH]; intros [|c str] Hl H; simpl in *;
    try discriminate; auto.
  apply andb_true_iff in Hl as [Ha Hl].
  injection H as Hc Hs. split; [apply tolower_lower; auto | apply IH; auto].
Qed.

Lemma casing_transform_tolower (word : string) :
  forall str, all_lower word = true ->
  casing_of word str -> transform_tolower str = word.
Proof.
  induction word as [|a word IH]; intros [|c str] Hl H; simpl in *;
    try tauto.
  apply andb_true_iff in Hl as [Ha Hl]. destruct H as [Hc H].
  f_equal; [|apply IH; auto].
  revert Ha. destruct Hc as [-> | ->];
    destruct a as [[] [] [] [] [] [] [] []]; vm_compute;
    intros Ha; first [discriminate Ha | reflexivity].
Qed.

End FromString.

(** C8.  [ModelType::from_string] ignores case: every spelling of "base"
    with each letter in either case gives [Base], every such spelling of
    "tiny" gives [Tiny], and every other string gives no model type,
    as a value.  The [Transcriber] built for [Base] has the model of 8
    layers, 8 kv heads and head dimension 52; for [Tiny], 6, 8 and 36. *)
Theorem from_string_case_insensitive (str : string) :
  (casing_of "base" str -> ModelType.from_string str = Some ModelType.Base) /\
  (casing_of "tiny" str -> ModelType.from_string str = Some ModelType.Tiny) /\
  (~ casing_of "base" str -> ~ casing_of "tiny" str ->
   ModelType.from_string str = None) /\
  (forall enc dec tok,
     config_of (model (Transcriber_new ModelType.Base enc dec tok)) = (8, 8, 52)) /\
  (forall enc dec tok,
     config_of (model (Transcriber_new ModelType.Tiny enc dec tok)) = (6, 8, 36)).
Proof.
  unfold ModelType.from_string.
  split; [|split; [|split; [|split]]].
  - intros H. apply casing_transform_tolower in H; [|reflexivity].
    rewrite H. reflexivity.
  - intros H. apply casing_transform_tolower in H; [|reflexivity].
    rewrite H. reflexivity.
  - intros Hb Ht.
    destruct (String.eqb_spec (ModelType.transform_tolower str) "base") as [E|_].
    + exfalso. apply Hb. apply transform_tolower_casing; auto.
    + destruct (String.eqb_spec (ModelType.transform_tolower str) "tiny")
        as [E|_]; [|reflexivity].
      exfalso. apply Ht. apply transform_tolower_casing; auto.
  - reflexivity.
  - reflexivity.
Qed.

Lemma from_string_case_insensitive_witness :
  ModelType.from_string "TINY" = Some ModelType.Tiny /\
  ModelType.from_string "bAsE" = Some ModelType.Base /\
  ModelType.from_string "medium" = None.
Proof.
  split; [|split].
  - apply (from_string_case_insensitive "TINY"). simpl. tauto.
  - apply (from_string_case_insensitive "bAsE"). simpl. tauto.
  - apply (from_string_case_insensitive "medium"); simpl; tauto.
Defined.

(** The hypothesis on the engine carries the statement: the buffer holds
    whatever the encoder's [Run] left in it. *)
Lemma audio_follows_the_engine :
  audio_after (transcribe Fixtures.scribbling (map Fixtures.f32 [3; 1; 4]))
  = map Fixtures.f32 [0; 0; 0].
Proof. vm_compute. reflexivity. Qed.

(* ===================================================================== *)
(** * Further properties of the token budget *)
(* ===================================================================== *)

Lemma token_budget_monotone_witness :
  token_budget 3999 <= token_budget 4000 /\
  token_budget 4000 <= token_budget 480000 /\
  token_budget 480000 <= token_budget 4398046511105333.
Proof.
  repeat split; apply token_budget_monotone; lia.
Defined.

(** X2.  The budget is the floor of one attempt exactly for clips of fewer
    than 4000 samples, a quarter of a second. *)
Theorem token_budget_one_iff (n : Z) :
  0 <= n < 2 ^ 64 -> (token_budget n = 1 <-> n < 4000).
Proof.
  intros Hn. split; intros H.
  - apply Z.nle_gt. intros Hge.
    assert (H4 : token_budget 4000 = 2) by (vm_compute; reflexivity).
    assert (Hm : max_len_of 4000 <= max_len_of n)
      by (apply Binary64.max_len_of_monotone; lia).
    unfold token_budget, max_token_count, min_token_count in *. lia.
  - rewrite token_budget_closed_form by lia.
    assert ((3 * n + 4000) / 8000 < 2); [|lia].
    apply Z.div_lt_upper_bound; lia.
Qed.

Lemma token_budget_one_iff_witness :
  token_budget 3999 = 1 /\ token_budget 4000 <> 1.
Proof.
  split.
  - apply (token_budget_one_iff 3999); lia.
  - intros H. apply (token_budget_one_iff 4000) in H; lia.
Defined.

(** X3.  Up to [2^50] samples, [max_len] is six tokens per second of audio
    rounded to the nearest integer: it differs from [6 n / 16000] by at
    most one half, and by exactly one half only upwards. *)
Theorem max_len_of_nearest (n : Z) :
  0 <= n < 2 ^ 50 -> 3 * n - 4000 < 8000 * max_len_of n <= 3 * n + 4000.
Proof.
  intros Hn. rewrite Binary64.max_len_of_closed_form by assumption.
  pose proof (Z.div_mod (3 * n + 4000) 8000 ltac:(lia)).
  pose proof (Z.mod_pos_bound (3 * n + 4000) 8000 ltac:(lia)). lia.
Qed.

Lemma max_len_of_nearest_witness :
  3 * 12000 - 4000 < 8000 * max_len_of 12000 <= 3 * 12000 + 4000.
Proof. apply max_len_of_nearest. lia. Defined.

(** X4.  Up to [2^50] samples, one more second of audio, [sample_rate]
    samples, raises [max_len] by exactly [max_tokens_per_second]. *)
Theorem max_len_of_per_second (n : Z) :
  0 <= n -> n + sample_rate < 2 ^ 50 ->
  max_len_of (n + sample_rate) = max_len_of n + max_tokens_per_second.
Proof.
  unfold sample_rate, max_tokens_per_second. intros Hn Hb.
  rewrite !Binary64.max_len_of_closed_form by lia.
  replace (3 * (n + 16000) + 4000) with (3 * n + 4000 + 6 * 8000) by lia.
  apply Z.div_add; lia.
Qed.

Lemma max_len_of_per_second_witness :
  max_len_of (1333 + sample_rate) = max_len_of 1333 + max_tokens_per_second.
Proof. apply max_len_of_per_second; unfold sample_rate; lia. Defined.

(* ===================================================================== *)
(** * Further properties of greedy selection *)
(* ===================================================================== *)

Lemma max_element_lt (l : list float) :
  l <> [] -> (max_element l < length l)%nat.
Proof.
  destruct l as [|x l]; [congruence|]. intros _. simpl.
  pose proof (max_element_from_bound l 0 x 1). lia.
Qed.

(** X5.  On logits of shape [{1, 1, V}] with [V] at least 1 (and within
    the range of [int]) the token returned is a position of the
    vocabulary, [0 <= t < V], whatever the values, NaN included. *)
Theorem get_next_token_in_vocabulary
    (logits : Value) (V : Z) (xs : list float) :
  GetShape logits = [1; 1; V] ->
  GetTensorData logits = FloatData xs ->
  Z.of_nat (length xs) = V -> 0 < V <= INT_MAX ->
  exists t, get_next_token logits = Ret t /\ 0 <= t < V.
Proof.
  intros Hs Hd Hl HV. exists (Z.of_nat (max_element xs)). split.
  - unfold get_next_token. rewrite Hs. simpl. rewrite Hd. unfold read_floats.
    replace ((0 <=? V) && (V <=? Z.of_nat (length xs))) with true
      by (symmetry; apply andb_true_iff; split; apply Z.leb_le; lia).
    simpl. rewrite <- Hl, Nat2Z.id, firstn_all.
    rewrite to_int_small; [reflexivity|].
    pose proof (max_element_bound xs). lia.
  - assert (xs <> []) by (intros ->; simpl in Hl; lia).
    pose proof (max_element_lt xs H). lia.
Qed.

Lemma get_next_token_in_vocabulary_witness :
  exists t,
    get_next_token
      (Fixtures.logits_of [Fixtures.NaN; Fixtures.f32 3; Fixtures.NaN]) = Ret t /\
    0 <= t < 3.
Proof.
  apply (get_next_token_in_vocabulary _ 3
           [Fixtures.NaN; Fixtures.f32 3; Fixtures.NaN]);
    try reflexivity.
  unfold INT_MAX. lia.
Defined.

(* ===================================================================== *)
(** * Further properties of the KV cache *)
(* ===================================================================== *)

Section Find.

Local Open Scope string_scope.

Lemma prefix_iff (pat : string) :
  forall str, String.prefix pat str = true <-> exists post, str = pat ++ post.
Proof.
  induction pat as [|a pat IH]; intros str.
  - destruct str; simpl;
      (split; [intros _; eexists; reflexivity | reflexivity]).
  - destruct str as [|b str]; simpl.
    + split; [discriminate | intros [post H]; discriminate].
    + destruct (ascii_dec a b) as [->|Hne].
      * rewrite IH. split; intros [post H]; exists post; congruence.
      * split; [discriminate | intros [post H]; congruence].
Qed.

Lemma contains_unfold (str pat : string) :
  contains str pat
  = if String.prefix pat str then true
    else match str with
         | EmptyString => false
         | String _ str' => contains str' pat
         end.
Proof. destruct str; reflexivity. Qed.

(** X6.  The test [key_str.find (past_key_prefix) != npos] holds exactly
    of the names in which the pattern occurs, at the front or anywhere
    after it: despite its name the pattern need not be a prefix. *)
Theorem contains_iff_occurs (pat str : string) :
  contains str pat = true <-> occurs_in pat str.
Proof.
  unfold occurs_in. split.
  - induction str as [|c str IH]; rewrite contains_unfold;
      destruct (String.prefix pat _) eqn:Hp.
    + intros _. apply prefix_iff in Hp as [post ->]. exists "", post. reflexivity.
    + discriminate.
    + intros _. apply prefix_iff in Hp as [post ->]. exists "", post. reflexivity.
    + intros H. destruct (IH H) as (pre & post & ->).
      exists (String c pre), post. reflexivity.
  - intros (pre & post & ->). induction pre as [|c pre IH].
    + rewrite contains_unfold.
      replace (String.prefix pat ("" ++ pat ++ post)) with true; [reflexivity|].
      symmetry. apply prefix_iff. exists post. reflexivity.
    + rewrite contains_unfold.
      change (String c pre ++ pat ++ post)
        with (String c (pre ++ pat ++ post)).
      destruct (String.prefix pat (String c (pre ++ pat ++ post)));
        [reflexivity | exact IH].
Qed.

End Find.

Lemma contains_iff_occurs_witness :
  contains "model.past_key_values.3.decoder.key" past_key_prefix = true /\
  ~ occurs_in past_key_prefix "encoder_hidden_states".
Proof.
  split.
  - apply (contains_iff_occurs past_key_prefix).
    exists "model."%string, ".3.decoder.key"%string. reflexivity.
  - intros H. apply (contains_iff_occurs past_key_prefix) in H. discriminate.
Defined.

Section KVCacheMore.

Local Open Scope nat_scope.

Lemma update_kv_cache_all_replaced (cache : list Value) :
  forall (new_values : list Value) (use_cache_branch : bool),
  Forall (fun c => GetShape c <> []) cache ->
  Forall (fun n => 3 <= length (GetShape n)) new_values ->
  (forall k c n, cache !! k = Some c -> new_values !! k = Some n ->
                 replacement_due c n use_cache_branch) ->
  update_kv_cache cache new_values use_cache_branch
  = Ret (take (length cache) new_values ++ drop (length new_values) cache).
Proof.
  induction cache as [|c cache IH]; intros new_values ucb Hc Hn Hdue.
  - simpl. rewrite drop_nil. reflexivity.
  - destruct new_values as [|n new_values]; [reflexivity|].
    inversion Hc as [|? ? Hc1 Hc2]; inversion Hn as [|? ? Hn1 Hn2]; subst.
    destruct (replacement_test c n ucb Hc1 Hn1) as (p & q & Hp & Hq & Hiff).
    simpl. rewrite Hp. simpl. rewrite Hq. simpl.
    rewrite (IH new_values ucb Hc2 Hn2)
      by (intros k c0 n0 H1 H2; apply (Hdue (S k)); assumption).
    simpl.
    replace ((p =? 0)%Z || (1 <? q)%Z || negb ucb) with true; [reflexivity|].
    symmetry. apply Hiff. apply (Hdue 0 c n); reflexivity.
Qed.

Lemma update_kv_cache_none_replaced (cache : list Value) :
  forall (new_values : list Value) (use_cache_branch : bool),
  Forall (fun c => GetShape c <> []) cache ->
  Forall (fun n => 3 <= length (GetShape n)) new_values ->
  (forall k c n, cache !! k = Some c -> new_values !! k = Some n ->
                 ~ replacement_due c n use_cache_branch) ->
  update_kv_cache cache new_values use_cache_branch = Ret cache.
Proof.
  induction cache as [|c cache IH]; intros new_values ucb Hc Hn Hdue.
  - reflexivity.
  - destruct new_values as [|n new_values]; [reflexivity|].
    inversion Hc as [|? ? Hc1 Hc2]; inversion Hn as [|? ? Hn1 Hn2]; subst.
    destruct (replacement_test c n ucb Hc1 Hn1) as (p & q & Hp & Hq & Hiff).
    simpl. rewrite Hp. simpl. rewrite Hq. simpl.
    rewrite (IH new_values ucb Hc2 Hn2)
      by (intros k c0 n0 H1 H2; apply (Hdue (S k)); assumption).
    simpl.
    destruct ((p =? 0)%Z || (1 <? q)%Z || negb ucb) eqn:E; [|reflexivity].
    exfalso. apply (Hdue 0 c n); [reflexivity | reflexivity |].
    apply Hiff. reflexivity.
Qed.

Lemma empty_past_key_values_shape (shape : list Z) (names : list string) :
  Forall (fun v => v = mkValue shape (FloatData [])) (empty_past_key_values shape names).
Proof.
  induction names as [|key names IH]; simpl; [constructor|].
  destruct (contains key past_key_prefix); [constructor|]; auto.
Qed.

(** X7.  Every entry of a freshly initialised cache is the empty tensor of
    shape [{0, num_kv_heads, 1, head_dim}], and an update of it with as
    many new values (of rank 3 or more) returns exactly the new values,
    with the cache branch or without. *)
Theorem fresh_cache_is_replaced (m : OnnxModel) (new_values : list Value)
    (use_cache_branch : bool) :
  length new_values = length (past_key_names m) ->
  Forall (fun n => 3 <= length (GetShape n)) new_values ->
  Forall (fun v => v = mkValue [0%Z; num_kv_heads m; 1%Z; head_dim m] (FloatData []))
         (initialize_past_key_values m) /\
  update_kv_cache (initialize_past_key_values m) new_values use_cache_branch
  = Ret new_values.
Proof.
  intros Hlen Hn.
  pose proof (empty_past_key_values_shape
                [0%Z; num_kv_heads m; 1%Z; head_dim m] (decoder_input_names m)) as Hshape.
  split; [exact Hshape|].
  rewrite update_kv_cache_all_replaced.
  - rewrite initialize_past_key_values_length, Hlen.
    rewrite <- Hlen at 1. rewrite firstn_all.
    rewrite drop_ge by (rewrite initialize_past_key_values_length; lia).
    rewrite app_nil_r. reflexivity.
  - eapply Forall_impl; [exact Hshape|]. intros v ->. discriminate.
  - exact Hn.
  - intros k c n Hc _. left.
    pose proof (Forall_lookup_1 _ _ _ _ Hshape Hc) as ->. reflexivity.
Qed.

(** X8.  Without the cache branch every paired entry is replaced: the
    result is the new values, cut to the length of the cache, followed by
    the cache entries that had no partner. *)
Theorem update_kv_cache_no_cache_branch (cache new_values : list Value) :
  Forall (fun c => GetShape c <> []) cache ->
  Forall (fun n => 3 <= length (GetShape n)) new_values ->
  update_kv_cache cache new_values false
  = Ret (take (length cache) new_values ++ drop (length new_values) cache).
Proof.
  intros Hc Hn. apply update_kv_cache_all_replaced; auto.
  intros. right. right. reflexivity.
Qed.

(** X9.  Under the cache branch, a cache whose entries all have a leading
    dimension other than 0, met by new values whose third axis is at most
    1, comes back as it was: nothing is appended or replaced. *)
Theorem update_kv_cache_steady (cache new_values : list Value) :
  Forall (fun c => exists d ds, GetShape c = d :: ds /\ d <> 0%Z) cache ->
  Forall (fun n => exists d0 d1 d2 ds,
                     GetShape n = d0 :: d1 :: d2 :: ds /\ (d2 <= 1)%Z) new_values ->
  update_kv_cache cache new_values true = Ret cache.
Proof.
  intros Hc Hn. apply update_kv_cache_none_replaced.
  - eapply Forall_impl; [exact Hc|]. intros c (d & ds & -> & _). discriminate.
  - eapply Forall_impl; [exact Hn|]. intros n (d0 & d1 & d2 & ds & -> & _).
    simpl. lia.
  - intros k c n Hck Hnk [H|[(d & Hd & Hlt)|H]]; [| |discriminate].
    + destruct (Forall_lookup_1 _ _ _ _ Hc Hck) as (d & ds & Hs & Hd). unfold leading_dim_is_zero in H.
      rewrite Hs in H. simpl in H. congruence.
    + destruct (Forall_lookup_1 _ _ _ _ Hn Hnk) as (d0 & d1 & d2 & ds & Hs & Hle).
      rewrite Hs in Hd. simpl in Hd. injection Hd as <-. lia.
Qed.

(** X10.  With fewer new values than cache entries the walk stops at the
    end of the new values: every cache entry from that position on is
    kept, and with no new values at all the cache is returned as it is. *)
Theorem update_kv_cache_keeps_tail (cache : list Value) :
  forall new_values use_cache_branch cache',
  update_kv_cache cache new_values use_cache_branch = Ret cache' ->
  forall k, length new_values <= k -> cache' !! k = cache !! k.
Proof.
  induction cache as [|c cache IH]; intros new_values ucb cache' H k Hk.
  - simpl in H. injection H as <-. reflexivity.
  - destruct new_values as [|n new_values].
    + simpl in H. injection H as <-. reflexivity.
    + simpl in H.
      destruct (index (GetShape c) 0); simpl in H; try discriminate.
      destruct (index (GetShape n) 2); simpl in H; try discriminate.
      destruct (update_kv_cache cache new_values ucb) as [rest| | |] eqn:E;
        simpl in H; try discriminate.
      injection H as <-. destruct k as [|k]; simpl in *; [lia|].
      eapply IH; [exact E | lia].
Qed.

(** X11.  [update_kv_cache] raises nothing.  It returns a cache when
    every paired cache entry has a first dimension and every paired new
    value a third one; otherwise some pair lacks the dimension the code
    reads with [operator[]], and the call has no defined result. *)
Theorem update_kv_cache_defined (cache : list Value) :
  forall new_values use_cache_branch,
  (exists cache', update_kv_cache cache new_values use_cache_branch = Ret cache' /\
     forall k c n, cache !! k = Some c -> new_values !! k = Some n ->
       GetShape c <> [] /\ 3 <= length (GetShape n)) \/
  (update_kv_cache cache new_values use_cache_branch = Undefined /\
     exists k c n, cache !! k = Some c /\ new_values !! k = Some n /\
       (GetShape c = [] \/ length (GetShape n) < 3)).
Proof.
  induction cache as [|c cache IH]; intros new_values ucb.
  - left. exists []. split; [reflexivity|]. intros k c n H. discriminate.
  - destruct new_values as [|n new_values].
    + left. exists (c :: cache). split; [reflexivity|]. intros k c0 n0 _ H.
      discriminate.
    + simpl. unfold index.
      destruct (GetShape c) as [|p ps] eqn:Ec.
      { right. simpl. split; [reflexivity|]. exists 0, c, n.
        repeat split; auto. }
      simpl.
      destruct (GetShape n) as [|q0 [|q1 [|q qs]]] eqn:En; simpl;
        try (right; split; [reflexivity|]; exists 0, c, n;
             repeat split; auto; right; rewrite En; simpl; lia).
      destruct (IH new_values ucb) as [(rest & -> & Hok)|(-> & k & c0 & n0 & H1 & H2 & H3)].
      * left. simpl. eexists. split; [reflexivity|].
        intros [|k] c0 n0 H1 H2; simpl in *.
        -- injection H1 as <-. injection H2 as <-. rewrite Ec, En.
           split; [discriminate | simpl; lia].
        -- eapply Hok; eauto.
      * right. simpl. split; [reflexivity|]. exists (S k), c0, n0. auto.
Qed.

Lemma update_kv_cache_false_Ret (cache : list Value) :
  forall new_values cache',
  update_kv_cache cache new_values false = Ret cache' ->
  cache' = take (length cache) new_values ++ drop (length new_values) cache.
Proof.
  induction cache as [|c cache IH]; intros new_values cache' H.
  - simpl in H. injection H as <-. rewrite drop_nil. reflexivity.
  - destruct new_values as [|n new_values].
    + simpl in H. injection H as <-. reflexivity.
    + simpl in H.
      destruct (index (GetShape c) 0); simpl in H; try discriminate.
      destruct (index (GetShape n) 2); simpl in H; try discriminate.
      destruct (update_kv_cache cache new_values false) as [rest| | |] eqn:E;
        simpl in H; try discriminate.
      injection H as <-. rewrite orb_true_r. simpl. f_equal. apply IH, E.
Qed.

End KVCacheMore.

Lemma fresh_cache_is_replaced_witness :
  update_kv_cache (initialize_past_key_values (model Fixtures.caching))
                  MoreFixtures.four_new_values true
  = Ret MoreFixtures.four_new_values.
Proof.
  apply fresh_cache_is_replaced; [reflexivity|].
  repeat constructor.
Defined.

Lemma update_kv_cache_no_cache_branch_witness :
  update_kv_cache [Fixtures.kv_entry 5; Fixtures.kv_entry 6; Fixtures.kv_entry 7]
                  [Fixtures.kv_entry 1; Fixtures.kv_entry 1] false
  = Ret [Fixtures.kv_entry 1; Fixtures.kv_entry 1; Fixtures.kv_entry 7].
Proof.
  apply (update_kv_cache_no_cache_branch
           [Fixtures.kv_entry 5; Fixtures.kv_entry 6; Fixtures.kv_entry 7]
           [Fixtures.kv_entry 1; Fixtures.kv_entry 1]).
  - repeat constructor; discriminate.
  - repeat constructor.
Defined.

Lemma update_kv_cache_steady_witness :
  update_kv_cache [Fixtures.kv_entry 5; Fixtures.kv_entry 6]
                  [Fixtures.kv_entry 1; Fixtures.kv_entry 0] true
  = Ret [Fixtures.kv_entry 5; Fixtures.kv_entry 6].
Proof.
  apply update_kv_cache_steady.
  - constructor; [|constructor; [|constructor]];
      (eexists _, _; split; [reflexivity | discriminate]).
  - constructor; [|constructor; [|constructor]];
      (eexists _, _, _, _; split; [reflexivity | lia]).
Defined.

Lemma update_kv_cache_keeps_tail_witness :
  exists cache',
    update_kv_cache [Fixtures.kv_entry 5; Fixtures.kv_entry 6; Fixtures.kv_entry 7]
                    [Fixtures.kv_entry 3] true = Ret cache' /\
    cache' !! 1%nat = Some (Fixtures.kv_entry 6) /\
    cache' !! 2%nat = Some (Fixtures.kv_entry 7).
Proof.
  eexists. split; [vm_compute; reflexivity|].
  split;
    (erewrite (update_kv_cache_keeps_tail
                 [Fixtures.kv_entry 5; Fixtures.kv_entry 6; Fixtures.kv_entry 7]
                 [Fixtures.kv_entry 3] true);
     [reflexivity | vm_compute; reflexivity | simpl; lia]).
Defined.

(* ===================================================================== *)
(** * Further properties of the decode loop *)
(* ===================================================================== *)

Section DecodeLoopMore.

Variable m : OnnxModel.

Local Open Scope nat_scope.

Lemma decode_step_Continue (s s' : loop_state) :
  decode_step m s = Ret (Continue s') ->
  i s' = S (i s) /\
  exists t, t <> end_token /\ selected t /\
            cur_tokens s' = [t] /\ result_tokens s' = result_tokens s ++ [t].
Proof.
  intros H. apply decode_step_inv in H
    as (hidden & cache & output & logits & t & _ & _ & Ht & Hr).
  destruct Hr as [[_ Hr]|[Hne (cache' & _ & Hr)]]; [discriminate|].
  injection Hr as ->. simpl. split; [reflexivity|].
  exists t. repeat split; auto. exists logits. exact Ht.
Qed.

Lemma decode_step_Break (s s' : loop_state) :
  decode_step m s = Ret (Break s') ->
  i s' = i s /\ cur_tokens s' = [end_token] /\
  result_tokens s' = result_tokens s.
Proof.
  intros H. apply decode_step_inv in H
    as (hidden & cache & output & logits & t & _ & _ & Ht & Hr).
  destruct Hr as [[-> Hr]|[Hne (cache' & _ & Hr)]]; [|discriminate].
  injection Hr as ->. simpl. auto.
Qed.

(** X12.  In every state the loop reaches by passes that go on, the
    counter [i] is the number of tokens generated so far, the decoder input
    [cur_tokens] holds exactly one token, the start token before the first
    pass and the last generated token after it, and no generated token is
    the end token. *)
Theorem decode_feeds_last_token (hidden : Value) (s : loop_state) :
  rtc (decode_continues_to m) (decode_init m hidden) s ->
  i s = length (result_tokens s) /\
  cur_tokens s = [List.last (result_tokens s) start_token] /\
  ~ In end_token (result_tokens s).
Proof.
  revert s. apply rtc_ind_r.
  - simpl. repeat split; auto.
  - intros s s' _ Hstep (Hi & Hcur & Hend).
    apply decode_step_Continue in Hstep as (Hi' & t & Hne & _ & Hc & Hr).
    rewrite Hi', Hc, Hr, List.last_last, length_app, Hi. simpl.
    repeat split; [lia|].
    rewrite in_app_iff. simpl. intros [?|[?|[]]]; auto.
Qed.

(** X13.  A run of [n] passes that returns has appended either exactly
    [n] tokens, or fewer and then it stopped on the end token, which is
    what [cur_tokens] holds; the counter has advanced by the number of
    tokens appended. *)
Theorem decode_loop_outcome (n : nat) :
  forall s s', decode_loop m n s = Ret s' ->
  exists gen,
    result_tokens s' = result_tokens s ++ gen /\
    i s' = i s + length gen /\
    ((length gen < n /\ cur_tokens s' = [end_token]) \/ length gen = n).
Proof.
  induction n as [|n IH]; intros s s' H; simpl in H.
  - injection H as <-. exists []. rewrite app_nil_r. simpl.
    split; [reflexivity|]. split; [lia | right; reflexivity].
  - destruct (decode_step m s) as [[s1|s1]| | |] eqn:Hs; simpl in H;
      try discriminate.
    + injection H as <-. apply decode_step_Break in Hs as (Hi & Hc & Hr).
      exists []. rewrite app_nil_r. simpl.
      split; [exact Hr|]. split; [lia|]. left. split; [lia | exact Hc].
    + apply decode_step_Continue in Hs as (Hi & t & _ & _ & _ & Hr).
      apply IH in H as (gen & Hres & Hi' & Hend).
      exists (t :: gen). rewrite Hres, Hr, <- (assoc_L (++)). simpl.
      split; [reflexivity|]. split; [lia|].
      destruct Hend as [[Hlt Hc]|Heq]; [left; split; [lia | exact Hc] | right; lia].
Qed.

Lemma decode_loop_extend (n k : nat) :
  forall s s1, decode_loop m n s = Ret s1 ->
  (length (result_tokens s1) < length (result_tokens s) + n ->
   decode_loop m (n + k) s = Ret s1) /\
  (forall s2, decode_loop m (n + k) s = Ret s2 ->
     exists gen, result_tokens s2 = result_tokens s1 ++ gen).
Proof.
  induction n as [|n IH]; intros s s1 H; simpl in H.
  - injection H as <-. split; [lia|]. intros s2 H2. simpl in H2.
    apply decode_loop_tokens in H2 as (gen & Hres & _). eauto.
  - destruct (decode_step m s) as [[s'|s']| | |] eqn:Hs; simpl in H;
      try discriminate.
    + injection H as <-. simpl. rewrite Hs. simpl. split; [reflexivity|].
      intros s2 [= <-]. exists []. rewrite app_nil_r. reflexivity.
    + simpl. rewrite Hs. simpl.
      apply decode_step_Continue in Hs as (_ & t & _ & _ & _ & Hr).
      destruct (IH s' s1 H) as [Hsame Hext]. split; [|exact Hext].
      intros Hlt. apply Hsame. rewrite Hr, length_app. simpl. lia.
Qed.

End DecodeLoopMore.

Lemma max_token_count_mono (a b : Z) :
  (a <= b)%Z ->
  exists k, Z.to_nat (max_token_count b) = (Z.to_nat (max_token_count a) + k)%nat.
Proof.
  intros H. unfold max_token_count, min_token_count.
  exists (Z.to_nat (Z.max b 1) - Z.to_nat (Z.max a 1))%nat. lia.
Qed.

(** X14.  Raising [max_len] never changes the tokens already returned: a
    run with a larger budget returns the same tokens followed by more, and
    returns exactly the same tokens when the smaller run stayed below its
    budget (it had stopped on the end token). *)
Theorem decode_budget_extends (m : OnnxModel) (hidden : Value)
    (max_len max_len' : Z) (tokens : list Z) :
  (max_len <= max_len')%Z ->
  decode m hidden max_len = Ret tokens ->
  ((Z.of_nat (length tokens) < max_token_count max_len)%Z ->
   decode m hidden max_len' = Ret tokens) /\
  (forall tokens', decode m hidden max_len' = Ret tokens' ->
     exists gen, tokens' = tokens ++ gen).
Proof.
  intros Hle H. unfold decode in *.
  destruct (max_token_count_mono max_len max_len' Hle) as [k ->].
  destruct (decode_loop m (Z.to_nat (max_token_count max_len))
              (decode_init m hidden)) as [s1| | |] eqn:H1; simpl in H;
    try discriminate.
  injection H as <-.
  destruct (decode_loop_extend m _ k _ _ H1) as [Hsame Hext]. split.
  - intros Hlt. rewrite Hsame; [reflexivity|]. simpl.
    unfold max_token_count, min_token_count in *. lia.
  - intros tokens' H2.
    destruct (decode_loop m (Z.to_nat (max_token_count max_len) + k)
                (decode_init m hidden)) as [s2| | |] eqn:E; simpl in H2;
      try discriminate.
    injection H2 as <-. apply Hext. reflexivity.
Qed.

(** X15.  Whatever [max_len] is, zero included, [decode] runs the first
    pass: when that pass raises, [decode] raises
    the same exception; when it selects the end token, [decode] returns no
    token. *)
Theorem decode_runs_first_pass (m : OnnxModel) (hidden : Value) (max_len : Z) :
  (forall e, decode_step m (decode_init m hidden) = Throw e ->
             decode m hidden max_len = Throw e) /\
  (forall s, decode_step m (decode_init m hidden) = Ret (Break s) ->
             decode m hidden max_len = Ret []).
Proof.
  unfold decode.
  destruct (max_token_count_positive max_len) as [n ->].
  cbn [decode_loop]. split.
  - intros e ->. reflexivity.
  - intros s Hs. rewrite Hs. cbn [bind].
    apply decode_step_Break in Hs as (_ & _ & ->). reflexivity.
Qed.

Section Aliasing.

Variable m : OnnxModel.
Hypothesis decoder_reads_only : reads_only (decoder m).

Lemma clone_tensor_same (v : Value) : clone_tensor v = v.
Proof. destruct v; reflexivity. Qed.

Lemma map_clone_tensor (l : list Value) : map clone_tensor l = l.
Proof. induction l as [|v l IH]; simpl; [|rewrite clone_tensor_same, IH]; reflexivity. Qed.

Lemma call_Run_reads_only (names : list string) (inputs : list Value) :
  inputs_after (call_Run (decoder m) names inputs) = map GetTensorData inputs.
Proof.
  unfold call_Run. destruct (_ <=? _)%nat; [apply decoder_reads_only | reflexivity].
Qed.

Lemma decode_next_token_reads_only cur h pkv b :
  decode_next_token m cur h pkv b
  = (h, pkv, outputs (call_Run (decoder m) (decoder_input_names m)
                               (decoder_inputs cur h pkv b))).
Proof.
  unfold decode_next_token, decoder_inputs.
  rewrite call_Run_reads_only, map_clone_tensor, clone_tensor_same. simpl.
  assert (Hcache : imap (fun k v =>
            write_back v (map GetTensorData (pkv ++ [bool_tensor b]) !! k)) pkv
          = pkv).
  { apply list_eq. intros k. rewrite list_lookup_imap.
    destruct (pkv !! k) as [v|] eqn:Hk; simpl; [|reflexivity].
    rewrite map_app, lookup_app_l
      by (rewrite length_map; eapply lookup_lt_Some; eauto).
    rewrite list_lookup_fmap, Hk. simpl. destruct v; reflexivity. }
  rewrite Hcache. destruct h; reflexivity.
Qed.

(** With a decoder whose [Run] does not write into its inputs, the hidden
    state fed to every pass is the one the loop started with. *)
Lemma hidden_state_is_kept (s s' : loop_state) :
  rtc (decode_steps_to m) s s' ->
  last_hidden_state s' = last_hidden_state s.
Proof.
  induction 1 as [|s s1 s2 Hstep _ IH]; [reflexivity|].
  rewrite IH. clear IH.
  destruct Hstep as [H|H]; apply decode_step_inv in H
    as (hidden & cache & output & logits & t & Hd & _ & _ & Hr);
    rewrite decode_next_token_reads_only in Hd; injection Hd as <- <- _;
    destruct Hr as [[_ Hr]|[_ (cache' & _ & Hr)]]; try discriminate;
    injection Hr as ->; reflexivity.
Qed.

(** X22.  With such a decoder, a first pass that goes on leaves in the
    cache exactly what the decoder returned behind the logits, when it
    returned one tensor for every cache entry: the empty tensors the cache
    started with are all gone. *)
Theorem first_pass_fills_cache (hidden : Value) (s' : loop_state) :
  decode_step m (decode_init m hidden) = Ret (Continue s') ->
  exists output,
    snd (decode_next_token m [start_token] hidden
           (initialize_past_key_values m) false) = Ret output /\
    (length output = S (length (past_key_names m)) ->
     past_key_values s' = drop 1 output).
Proof.
  intros H. apply decode_step_inv in H
    as (h & cache & output & logits & t & Hd & _ & _ & Hr).
  change (cur_tokens (decode_init m hidden)) with [start_token] in Hd.
  change (last_hidden_state (decode_init m hidden)) with hidden in Hd.
  change (past_key_values (decode_init m hidden))
    with (initialize_past_key_values m) in Hd.
  change (0 <? i (decode_init m hidden))%nat with false in Hd, Hr.
  exists output. rewrite Hd. split; [reflexivity|]. intros Hlen.
  rewrite decode_next_token_reads_only in Hd. injection Hd as <- <- _.
  destruct Hr as [[_ Hr]|[_ (cache' & Hu & Hr)]]; [discriminate|].
  injection Hr as ->. simpl.
  apply update_kv_cache_false_Ret in Hu. rewrite Hu.
  rewrite initialize_past_key_values_length, length_drop, Hlen.
  replace (S (length (past_key_names m)) - 1)%nat
    with (length (past_key_names m)) by lia.
  rewrite (drop_ge (initialize_past_key_values m))
    by (rewrite initialize_past_key_values_length; lia).
  rewrite app_nil_r. apply firstn_all2. rewrite length_drop. lia.
Qed.

End Aliasing.

(** X16.  [clone_tensor] hands the decoder a view of the hidden state, not
    a copy: after a pass the hidden state of the loop has the shape it had
    and holds what the decoder's [Run] left in the buffer of its second
    input.  So with a decoder whose [Run] does not write into its inputs,
    the hidden state fed to every pass is the one the loop started
    with. *)
Theorem hidden_state_is_a_view (m : OnnxModel) :
  (forall s s',
     decode_steps_to m s s' ->
     last_hidden_state s'
     = write_back (last_hidden_state s)
         (inputs_after
            (call_Run (decoder m) (decoder_input_names m)
               (decoder_inputs (cur_tokens s) (last_hidden_state s)
                  (past_key_values s) (0 <? i s)%nat)) !! 1%nat)) /\
  (reads_only (decoder m) ->
   forall s s',
     rtc (decode_steps_to m) s s' ->
     last_hidden_state s' = last_hidden_state s).
Proof.
  split; [|intros Hro s s'; apply hidden_state_is_kept; exact Hro].
  intros s s' Hstep.
  assert (Hd : forall hidden cache out,
    decode_next_token m (cur_tokens s) (last_hidden_state s)
      (past_key_values s) (0 <? i s)%nat = (hidden, cache, out) ->
    hidden = write_back (last_hidden_state s)
               (inputs_after
                  (call_Run (decoder m) (decoder_input_names m)
                     (decoder_inputs (cur_tokens s) (last_hidden_state s)
                        (past_key_values s) (0 <? i s)%nat)) !! 1%nat)).
  { unfold decode_next_token, decoder_inputs.
    rewrite map_clone_tensor, clone_tensor_same. intros ? ? ? [= <- _ _].
    reflexivity. }
  destruct Hstep as [H|H]; apply decode_step_inv in H
    as (hidden & cache & output & logits & t & Hdn & _ & _ & Hr);
    apply Hd in Hdn; subst hidden;
    destruct Hr as [[_ Hr]|[_ (cache' & _ & Hr)]]; try discriminate;
    injection Hr as ->; reflexivity.
Qed.

Lemma decode_feeds_last_token_witness :
  exists s,
    rtc (decode_continues_to (model Fixtures.talking))
        (decode_init (model Fixtures.talking) Fixtures.hidden_state) s /\
    result_tokens s = [5; 7] /\ i s = 2%nat /\ cur_tokens s = [7].
Proof.
  eassert (H : rtc (decode_continues_to (model Fixtures.talking))
                 (decode_init (model Fixtures.talking) Fixtures.hidden_state) _).
  { eapply rtc_l; [vm_compute; reflexivity|].
    eapply rtc_l; [vm_compute; reflexivity|]. apply rtc_refl. }
  eexists. split; [exact H|].
  destruct (decode_feeds_last_token _ _ _ H) as (Hi & Hcur & _).
  split; [reflexivity|]. split; [exact Hi | exact Hcur].
Defined.

Lemma decode_loop_outcome_witness :
  exists s,
    decode_loop (model Fixtures.talking) 6
      (decode_init (model Fixtures.talking) Fixtures.hidden_state) = Ret s /\
    result_tokens s = [5; 7] /\ cur_tokens s = [end_token].
Proof.
  eassert (H : decode_loop (model Fixtures.talking) 6
                 (decode_init (model Fixtures.talking) Fixtures.hidden_state)
               = Ret _) by (vm_compute; reflexivity).
  eexists. split; [exact H|]. split; [reflexivity|].
  destruct (decode_loop_outcome _ _ _ _ H)
    as (gen & Hres & _ & [[_ Hc]|Hlen]); [exact Hc|].
  vm_compute in Hres. subst gen. discriminate Hlen.
Defined.

Lemma decode_budget_extends_witness :
  decode (model Fixtures.talking) Fixtures.hidden_state 1 = Ret [5] /\
  decode (model Fixtures.talking) Fixtures.hidden_state 6 = Ret [5; 7] /\
  exists gen, [5; 7] = [5] ++ gen.
Proof.
  assert (H1 : decode (model Fixtures.talking) Fixtures.hidden_state 1 = Ret [5])
    by (vm_compute; reflexivity).
  assert (H6 : decode (model Fixtures.talking) Fixtures.hidden_state 6 = Ret [5; 7])
    by (vm_compute; reflexivity).
  split; [exact H1|]. split; [exact H6|].
  apply (decode_budget_extends (model Fixtures.talking) Fixtures.hidden_state
           1 6 [5]); [lia | exact H1 | exact H6].
Defined.

Lemma decode_runs_first_pass_witness :
  decode (model MoreFixtures.failing) Fixtures.hidden_state 0
  = Throw Ort_Exception /\
  decode (model Fixtures.silent) Fixtures.hidden_state 0 = Ret [].
Proof.
  split.
  - apply decode_runs_first_pass. vm_compute. reflexivity.
  - eapply decode_runs_first_pass. vm_compute. reflexivity.
Defined.

Lemma hidden_state_is_a_view_witness :
  (exists s',
     decode_steps_to (model MoreFixtures.overwriting)
       (decode_init (model MoreFixtures.overwriting) Fixtures.hidden_state)
       s' /\
     last_hidden_state s'
     = mkValue [1; 1; 2] (FloatData [Fixtures.f32 1; Fixtures.f32 1])) /\
  (exists s',
     decode_loop (model Fixtures.talking) 6
       (decode_init (model Fixtures.talking) Fixtures.hidden_state) = Ret s' /\
     last_hidden_state s' = Fixtures.hidden_state).
Proof.
  split.
  - eassert (H : decode_step (model MoreFixtures.overwriting)
                   (decode_init (model MoreFixtures.overwriting)
                      Fixtures.hidden_state) = Ret (Continue _))
      by (vm_compute; reflexivity).
    eexists. split; [right; exact H|].
    rewrite (proj1 (hidden_state_is_a_view (model MoreFixtures.overwriting))
               _ _ (or_intror H)).
    vm_compute. reflexivity.
  - eassert (H : decode_loop (model Fixtures.talking) 6
                   (decode_init (model Fixtures.talking) Fixtures.hidden_state)
                 = Ret _) by (vm_compute; reflexivity).
    eexists. split; [exact H|].
    apply decode_loop_reaches in H.
    apply (proj2 (hidden_state_is_a_view (model Fixtures.talking))) in H;
      [exact H | intros inputs; reflexivity].
Defined.

(* ===================================================================== *)
(** * The decoder's inputs *)
(* ===================================================================== *)

Section DecoderArity.

Variable m : OnnxModel.

Local Open Scope nat_scope.

Lemma names_split :
  length (decoder_input_names m)
  = length (past_key_names m) + length (other_names m).
Proof.
  unfold past_key_names, other_names.
  induction (decoder_input_names m) as [|key names IH]; simpl; [reflexivity|].
  destruct (contains key past_key_prefix); simpl; lia.
Qed.

Lemma decoder_inputs_length cur h cache b :
  length (decoder_inputs cur h cache b) = length cache + 3.
Proof. unfold decoder_inputs. simpl. rewrite length_app. simpl. lia. Qed.

Lemma decode_next_token_outputs cur h cache b :
  snd (decode_next_token m cur h cache b)
  = outputs (call_Run (decoder m) (decoder_input_names m)
                      (decoder_inputs cur h cache b)).
Proof.
  unfold decode_next_token, decoder_inputs. simpl.
  rewrite map_clone_tensor, clone_tensor_same. reflexivity.
Qed.

(** X17.  Each pass hands the decoder three tensors besides the cache
    entries (the token, the hidden state, the branch flag), under the
    names the decoder declares.  When the decoder declares at least three
    inputs that are not cache inputs, its [Run] is called on exactly those
    tensors; when it declares fewer, the name vector is read past its end
    and no decode run has a defined result. *)
Theorem decoder_needs_three_other_inputs :
  (forall cur h cache b,
     length cache = length (past_key_names m) ->
     snd (decode_next_token m cur h cache b)
     = if 3 <=? length (other_names m)
       then outputs (Run (decoder m) (decoder_inputs cur h cache b))
       else Undefined) /\
  (length (other_names m) < 3 ->
   forall hidden max_len, decode m hidden max_len = Undefined).
Proof.
  assert (Hcall : forall cur h cache b,
     length cache = length (past_key_names m) ->
     snd (decode_next_token m cur h cache b)
     = if 3 <=? length (other_names m)
       then outputs (Run (decoder m) (decoder_inputs cur h cache b))
       else Undefined).
  { intros cur h cache b Hlen. rewrite decode_next_token_outputs.
    unfold call_Run. rewrite decoder_inputs_length, names_split, Hlen.
    destruct (Nat.leb_spec 3 (length (other_names m)));
      destruct (Nat.leb_spec (length (past_key_names m) + 3)
                  (length (past_key_names m) + length (other_names m)));
      try lia; reflexivity. }
  split; [exact Hcall|].
  intros Hlt hidden max_len. unfold decode.
  destruct (max_token_count_positive max_len) as [n ->].
  cbn [decode_loop]. unfold decode_step.
  specialize (Hcall (cur_tokens (decode_init m hidden))
                    (last_hidden_state (decode_init m hidden))
                    (past_key_values (decode_init m hidden))
                    (0 <? i (decode_init m hidden))
                    (initialize_past_key_values_length m)).
  replace (3 <=? length (other_names m)) with false in Hcall
    by (symmetry; apply Nat.leb_gt; lia).
  destruct (decode_next_token m _ _ _ _) as [[h' c'] out].
  cbn [snd] in Hcall. subst out. reflexivity.
Qed.

End DecoderArity.

(* ===================================================================== *)
(** * Further properties of the facade *)
(* ===================================================================== *)

Section FacadeMore.

Variable t : Transcriber.
Variable audio_data : list float.

Lemma run_body_tokens (tokens : list Z) :
  snd (run_body (model t) audio_data) = Ret tokens ->
  Z.of_nat (length tokens) <= token_budget (Z.of_nat (length audio_data)) /\
  ~ In end_token tokens.
Proof.
  unfold run_body.
  destruct (encode (model t) audio_data) as [audio' hidden]. simpl.
  destruct hidden as [hidden| | |]; simpl; try discriminate.
  destruct (at_ hidden 0) as [h| | |]; simpl; try discriminate.
  unfold decode.
  destruct (decode_loop (model t) _ (decode_init (model t) h))
    as [s| | |] eqn:Hloop; simpl; try discriminate.
  intros [= <-].
  apply decode_loop_tokens in Hloop as (gen & Hres & Hlen & Hend & _).
  simpl in Hres. subst gen. split; [|exact Hend].
  unfold token_budget, max_token_count, min_token_count in *. lia.
Qed.

(** X18.  [transcribe] calls the tokenizer's [Decode] at most once, and
    then on exactly the tokens [run] returned: a sequence that is not
    empty, holds no end token and is no longer than the token budget of
    the sample count; what [Decode] returns is what [transcribe]
    returns. *)
Theorem tokenizer_called_at_most_once :
  Decode_calls (transcribe t audio_data) = [] \/
  exists tokens,
    Decode_calls (transcribe t audio_data) = [tokens] /\
    snd (run (model t) audio_data) = Ret tokens /\
    tokens <> [] /\ ~ In end_token tokens /\
    Z.of_nat (length tokens) <= token_budget (Z.of_nat (length audio_data)) /\
    returned (transcribe t audio_data) = noexcept (Decode (tokenizer t) tokens).
Proof.
  rewrite Decode_calls_by_run_body, transcribe_by_run_body.
  pose proof run_body_tokens as Hb. unfold run.
  destruct (run_body (model t) audio_data) as [a [[|tok tokens]|e| |]];
    simpl in *; auto.
  right. exists (tok :: tokens). destruct (Hb _ eq_refl) as [Hlen Hend].
  split; [reflexivity|]. split; [reflexivity|]. split; [discriminate|].
  split; [exact Hend|]. split; [exact Hlen | reflexivity].
Qed.

(** X19.  When the encoder's [Run] raises, or returns no output tensor
    (so that [at (0)] raises), [transcribe] ends the process and the
    tokenizer is not called. *)
Theorem encoder_failure_terminates :
  (exists e, snd (encode (model t) audio_data) = Throw e) \/
  snd (encode (model t) audio_data) = Ret [] ->
  returned (transcribe t audio_data) = Terminate /\
  Decode_calls (transcribe t audio_data) = [].
Proof.
  intros H. rewrite Decode_calls_by_run_body, transcribe_by_run_body.
  unfold run_body.
  destruct (encode (model t) audio_data) as [audio' hidden]. simpl in *.
  destruct H as [[e ->]| ->]; simpl; auto.
Qed.

End FacadeMore.

(* ===================================================================== *)
(** * Construction *)
(* ===================================================================== *)

Section Construction.

Import Construct.
Local Open Scope string_scope.

Variable L : Loader.
Variables encoder_path decoder_path tokenizer_path : string.
Variable num_threads : Z.

Lemma new_OnnxModel_Ret nl nkv hd (m : OnnxModel) :
  new_OnnxModel L encoder_path decoder_path nl nkv hd num_threads = Ret m <->
  exists enc dec,
    default_env L = Ret tt /\
    is_regular_file L encoder_path = Ret true /\
    is_regular_file L decoder_path = Ret true /\
    Session_new L encoder_path num_threads = Ret enc /\
    Session_new L decoder_path num_threads = Ret dec /\
    m = OnnxModel_new enc dec nl nkv hd.
Proof.
  unfold new_OnnxModel.
  destruct (default_env L) as [[]| | |]; simpl;
    try (split; [discriminate | intros (? & ? & ? & _); discriminate]).
  destruct (is_regular_file L encoder_path) as [[]| | |]; simpl;
    try (split; [discriminate | intros (? & ? & _ & ? & _); discriminate]).
  destruct (is_regular_file L decoder_path) as [[]| | |]; simpl;
    try (split; [discriminate | intros (? & ? & _ & _ & ? & _); discriminate]).
  destruct (Session_new L encoder_path num_threads) as [enc| | |]; simpl;
    try (split; [discriminate | intros (? & ? & _ & _ & _ & ? & _); discriminate]).
  destruct (Session_new L decoder_path num_threads) as [dec| | |]; simpl;
    try (split; [discriminate
                | intros (? & ? & _ & _ & _ & _ & ? & _); discriminate]).
  split.
  - intros [= <-]. exists enc, dec. auto 10.
  - intros (enc' & dec' & _ & _ & _ & [= <-] & [= <-] & ->). reflexivity.
Qed.

(** X20.  The constructor of [Transcriber] succeeds exactly when the
    tokenizer path is a regular file whose contents [FromBlobJSON] accepts,
    the engine environment is created, both model paths are regular files
    and both sessions load; the object
    built then holds that tokenizer and the model of the requested type
    over the two sessions. *)
Theorem new_Transcriber_Ret (model_type : ModelType.Type_) (t : Transcriber) :
  new_Transcriber L model_type encoder_path decoder_path tokenizer_path
                  num_threads = Ret t <->
  exists contents tok enc dec,
    status L tokenizer_path = regular_file contents /\
    FromBlobJSON L contents = Ret tok /\
    default_env L = Ret tt /\
    is_regular_file L encoder_path = Ret true /\
    is_regular_file L decoder_path = Ret true /\
    Session_new L encoder_path num_threads = Ret enc /\
    Session_new L decoder_path num_threads = Ret dec /\
    t = Transcriber_new model_type enc dec tok.
Proof.
  unfold new_Transcriber, exists_, is_regular_file at 1, slurp.
  destruct (status L tokenizer_path) as [|contents| |] eqn:Hs; simpl;
    try (split; [discriminate | intros (? & ? & ? & ? & ? & _); discriminate]).
  destruct (FromBlobJSON L contents) as [tok| | |] eqn:Ht; simpl;
    try (split; [discriminate |
                 intros (? & ? & ? & ? & [= <-] & ? & _); congruence]).
  assert (Hm : forall nl nkv hd,
    (let* m := new_OnnxModel L encoder_path decoder_path nl nkv hd num_threads in
     Ret (mkTranscriber m tok)) = Ret t <->
    exists enc dec,
      default_env L = Ret tt /\
      is_regular_file L encoder_path = Ret true /\
      is_regular_file L decoder_path = Ret true /\
      Session_new L encoder_path num_threads = Ret enc /\
      Session_new L decoder_path num_threads = Ret dec /\
      t = mkTranscriber (OnnxModel_new enc dec nl nkv hd) tok).
  { intros nl nkv hd.
    destruct (new_OnnxModel L encoder_path decoder_path nl nkv hd num_threads)
      as [m| | |] eqn:Hm; simpl.
    - apply new_OnnxModel_Ret in Hm as (enc & dec & H0 & H1 & H2 & H3 & H4 & ->).
      split.
      + intros [= <-]. exists enc, dec. auto 10.
      + intros (enc' & dec' & _ & _ & _ & He & Hd & ->). congruence.
    - split; [discriminate|]. intros (enc & dec & H0 & H1 & H2 & H3 & H4 & _).
      assert (new_OnnxModel L encoder_path decoder_path nl nkv hd num_threads
              = Ret (OnnxModel_new enc dec nl nkv hd))
        by (apply new_OnnxModel_Ret; eauto 10). congruence.
    - split; [discriminate|]. intros (enc & dec & H0 & H1 & H2 & H3 & H4 & _).
      assert (new_OnnxModel L encoder_path decoder_path nl nkv hd num_threads
              = Ret (OnnxModel_new enc dec nl nkv hd))
        by (apply new_OnnxModel_Ret; eauto 10). congruence.
    - split; [discriminate|]. intros (enc & dec & H0 & H1 & H2 & H3 & H4 & _).
      assert (new_OnnxModel L encoder_path decoder_path nl nkv hd num_threads
              = Ret (OnnxModel_new enc dec nl nkv hd))
        by (apply new_OnnxModel_Ret; eauto 10). congruence. }
  destruct model_type; unfold Base, Tiny; rewrite Hm; split.
  - intros (enc & dec & ? & ? & ? & ? & ? & ->).
    exists contents, tok, enc, dec. auto 10.
  - intros (c & tok' & enc & dec & [= <-] & Hf & ? & ? & ? & ? & ? & ->).
    exists enc, dec. rewrite Ht in Hf. injection Hf as <-. auto 10.
  - intros (enc & dec & ? & ? & ? & ? & ? & ->).
    exists contents, tok, enc, dec. auto 10.
  - intros (c & tok' & enc & dec & [= <-] & Hf & ? & ? & ? & ? & ? & ->).
    exists enc, dec. rewrite Ht in Hf. injection Hf as <-. auto 10.
Qed.

(** X21.  The failures of construction come in a fixed order: a status
    query on the tokenizer path that fails ([filesystem_error]), a missing
    tokenizer file, a tokenizer path that is not a regular file, the
    tokenizer's own failure, the engine environment, a failing status
    query on the encoder path, an encoder path that is not a regular file,
    the same two for the decoder path, the encoder session, the decoder
    session.  So a bad model path is reported only once the tokenizer is
    loaded, and a bad decoder path before any session is created. *)
Theorem new_Transcriber_failure_order (model_type : ModelType.Type_) :
  let build := new_Transcriber L model_type encoder_path decoder_path
                               tokenizer_path num_threads in
  (status L tokenizer_path = query_failed ->
   build = Throw std_filesystem_error) /\
  (status L tokenizer_path = not_found ->
   build = Throw (std_runtime_error ("File not found: " ++ tokenizer_path))) /\
  (status L tokenizer_path = not_regular ->
   build = Throw (std_runtime_error ("Not a regular file: " ++ tokenizer_path))) /\
  (forall contents,
     status L tokenizer_path = regular_file contents ->
     (forall e, FromBlobJSON L contents = Throw e -> build = Throw e) /\
     (forall tok, FromBlobJSON L contents = Ret tok ->
        (forall e, default_env L = Throw e -> build = Throw e) /\
        (default_env L = Ret tt ->
         (status L encoder_path = query_failed ->
          build = Throw std_filesystem_error) /\
         (is_regular_file L encoder_path = Ret false ->
          build = Throw (std_runtime_error
                    ("Encoder path is not a regular file: " ++ encoder_path))) /\
         (is_regular_file L encoder_path = Ret true ->
          (status L decoder_path = query_failed ->
           build = Throw std_filesystem_error) /\
          (is_regular_file L decoder_path = Ret false ->
           build = Throw (std_runtime_error
                     ("Decoder path is not a regular file: " ++ decoder_path))) /\
          (is_regular_file L decoder_path = Ret true ->
           (forall e, Session_new L encoder_path num_threads = Throw e ->
                      build = Throw e) /\
           (forall enc e, Session_new L encoder_path num_threads = Ret enc ->
                          Session_new L decoder_path num_threads = Throw e ->
                          build = Throw e)))))).
Proof.
  intros build. subst build.
  unfold new_Transcriber, exists_, slurp.
  split; [intros ->; reflexivity|].
  split; [intros ->; reflexivity|].
  split.
  { intros Hs. unfold is_regular_file. rewrite Hs. reflexivity. }
  intros contents Hs.
  assert (Hreg : is_regular_file L tokenizer_path = Ret true)
    by (unfold is_regular_file; rewrite Hs; reflexivity).
  rewrite Hreg, Hs. cbn [bind negb].
  split; [intros e ->; reflexivity|].
  intros tok ->. cbn [bind].
  assert (Hq : forall p, status L p = query_failed ->
                         is_regular_file L p = Throw std_filesystem_error)
    by (intros p Hp; unfold is_regular_file; rewrite Hp; reflexivity).
  destruct model_type; unfold Base, Tiny, new_OnnxModel;
    (split; [intros e ->; reflexivity|]);
    intros ->; cbn [bind];
    (split; [intros He; rewrite (Hq _ He); reflexivity|]);
    (split; [intros ->; reflexivity|]);
    intros ->; cbn [bind negb];
    (split; [intros He; rewrite (Hq _ He); reflexivity|]);
    (split; [intros ->; reflexivity|]);
    intros ->; cbn [bind negb];
    (split; [intros e ->; reflexivity | intros enc e -> ->; reflexivity]).
Qed.

End Construction.

Lemma first_pass_fills_cache_witness :
  exists s,
    decode_step (model Fixtures.caching)
      (decode_init (model Fixtures.caching) Fixtures.hidden_state)
    = Ret (Continue s) /\
    past_key_values s = MoreFixtures.four_new_values.
Proof.
  eassert (H : decode_step (model Fixtures.caching)
                 (decode_init (model Fixtures.caching) Fixtures.hidden_state)
               = Ret (Continue _)) by (vm_compute; reflexivity).
  eexists. split; [exact H|].
  destruct (first_pass_fills_cache (model Fixtures.caching)
              (fun inputs => eq_refl) _ _ H) as (output & Hout & Hcache).
  vm_compute in Hout. injection Hout as <-.
  rewrite Hcache; [|vm_compute]; reflexivity.
Defined.

Lemma decoder_needs_three_other_inputs_witness :
  decode MoreFixtures.two_input_model Fixtures.hidden_state 6 = Undefined /\
  snd (decode_next_token (model Fixtures.caching) [start_token]
         Fixtures.hidden_state
         (initialize_past_key_values (model Fixtures.caching)) false)
  = outputs (Run (decoder (model Fixtures.caching))
               (decoder_inputs [start_token] Fixtures.hidden_state
                  (initialize_past_key_values (model Fixtures.caching)) false)).
Proof.
  split.
  - apply decoder_needs_three_other_inputs. vm_compute. lia.
  - apply (proj1 (decoder_needs_three_other_inputs (model Fixtures.caching))).
    vm_compute. reflexivity.
Defined.

Lemma tokenizer_called_at_most_once_witness :
  Decode_calls (transcribe Fixtures.talking Fixtures.one_second) = [[5; 7]].
Proof.
  destruct (tokenizer_called_at_most_once Fixtures.talking Fixtures.one_second)
    as [H|(tokens & H & Hrun & _)].
  - vm_compute in H. discriminate H.
  - rewrite H. vm_compute in Hrun. injection Hrun as <-. reflexivity.
Defined.

Lemma encoder_failure_terminates_witness :
  returned (transcribe MoreFixtures.deaf Fixtures.one_second) = Terminate /\
  Decode_calls (transcribe MoreFixtures.deaf Fixtures.one_second) = [].
Proof.
  apply encoder_failure_terminates. right. vm_compute. reflexivity.
Defined.

Lemma new_Transcriber_Ret_witness :
  Construct.new_Transcriber MoreFixtures.disk ModelType.Tiny
    "encoder.onnx" "decoder.onnx" "tokenizer.json" 4
  = Ret Fixtures.talking.
Proof.
  apply new_Transcriber_Ret.
  exists "{}"%string, Fixtures.echo_tokenizer, Fixtures.the_encoder,
         (Fixtures.scripted_decoder Fixtures.script).
  repeat split.
Defined.

Lemma new_Transcriber_failure_order_witness :
  Construct.new_Transcriber MoreFixtures.disk ModelType.Base
    "broken.onnx" "models" "tokenizer.json" 4
  = Throw (std_runtime_error "Decoder path is not a regular file: models") /\
  Construct.new_Transcriber MoreFixtures.disk ModelType.Base
    "broken.onnx" "models" "tokenizer.jsn" 4
  = Throw (std_runtime_error "File not found: tokenizer.jsn") /\
  Construct.new_Transcriber MoreFixtures.disk ModelType.Base
    "broken.onnx" "models" "locked/tokenizer.json" 4
  = Throw std_filesystem_error.
Proof.
  split; [|split].
  - destruct (new_Transcriber_failure_order MoreFixtures.disk
                "broken.onnx" "models" "tokenizer.json" 4 ModelType.Base)
      as (_ & _ & _ & H).
    destruct (H "{}"%string eq_refl) as [_ Htok].
    destruct (Htok Fixtures.echo_tokenizer eq_refl) as (_ & Henv).
    destruct (Henv eq_refl) as (_ & _ & Henc).
    destruct (Henc eq_refl) as (_ & Hdec & _).
    apply Hdec; reflexivity.
  - apply (new_Transcriber_failure_order MoreFixtures.disk
             "broken.onnx" "models" "tokenizer.jsn" 4 ModelType.Base).
    reflexivity.
  - apply (new_Transcriber_failure_order MoreFixtures.disk
             "broken.onnx" "models" "locked/tokenizer.json" 4 ModelType.Base).
    reflexivity.
Defined.
